(** * ecoride-admin: the live map and the push-notification bridge

    A shallow embedding of the two modules that carry the dashboard's
    real-time behaviour:

    - [src/components/AdminLiveMap.tsx]: the location cache
      ([locationsByDriverId]), the marker projection ([availableMarkers],
      [engagedMarkers]), the heat point cloud ([heatPoints]) and the
      zoom-reactive heat radius of [HeatLayer];
    - [src/context/SignalRContext.tsx]: the handlers the provider registers
      on the hub connection (toast, query invalidation, connection state)
      and [resolveHubBaseUrl].

    JavaScript numbers are IEEE 754 binary64 values and are modelled by the
    kernel's primitive floats, so a literal such as [0.4] denotes the same
    double here and in the browser.  The own properties of an object used
    as a dictionary are a finite map, and a read of the object falls back
    on the members inherited from [Object.prototype]; React state is
    threaded explicitly. *)

From Stdlib Require Import Floats ZArith QArith Qminmax Lia Lqa Ascii String.
From stdpp Require Import gmap strings list.

Set Warnings "-inexact-float,-clear-no-such-hyp".
Local Open Scope string_scope.

(** ** JavaScript primitives used by the two modules *)

Module JS.

(** [String.prototype.toLowerCase] on one code unit.  Only the ASCII
    capitals move; every other byte is kept, which agrees with the
    browser on every comparison made below: the words compared against
    ([online], [busy], [on_trip], [http://], [/api]) contain no [k], the
    one ASCII letter that a non-ASCII character (the Kelvin sign)
    lowercases to. *)
Definition lowerChar (c : ascii) : ascii :=
  let n := nat_of_ascii c in
  if (65 <=? n)%nat && (n <=? 90)%nat then ascii_of_nat (n + 32) else c.

Fixpoint toLowerCase (s : string) : string :=
  match s with
  | EmptyString => EmptyString
  | String c rest => String (lowerChar c) (toLowerCase rest)
  end.

(** [s.endsWith(t)] *)
Definition endsWith (s t : string) : bool :=
  let n := String.length s in
  let m := String.length t in
  (m <=? n)%nat && String.eqb (substring (n - m) m s) t.

(** [s.startsWith(t)] *)
Definition startsWith (s t : string) : bool :=
  String.eqb (substring 0 (String.length t) s) t.

(** [s.slice(0, -k)] *)
Definition dropLast (k : nat) (s : string) : string :=
  substring 0 (String.length s - k) s.

(** Truthiness of a value typed [string | undefined]: [undefined] and the
    empty string are falsy. *)
Definition truthy (v : option string) : bool :=
  match v with
  | Some s => negb (String.eqb s "")
  | None => false
  end.

(** [a || b] on values typed [string | undefined]. *)
Definition or_else (a b : option string) : option string :=
  if truthy a then a else b.

(** [Math.max(a, b)] and [Math.min(a, b)] on two numbers: [NaN] if either
    argument is [NaN], and [-0] counts as smaller than [+0]. *)
Definition is_neg_zero (x : float) : bool :=
  match classify x with NZero => true | _ => false end.

Definition Math_max (a b : float) : float :=
  if is_nan a || is_nan b then nan
  else if (a <? b)%float then b
  else if (b <? a)%float then a
  else if is_neg_zero a then b else a.

Definition Math_min (a b : float) : float :=
  if is_nan a || is_nan b then nan
  else if (a <? b)%float then a
  else if (b <? a)%float then b
  else if is_neg_zero a then a else b.

(** [Number.isFinite(x)] for a value that is a number. *)
Definition Number_isFinite (x : float) : bool := is_finite x.

(** The property names every plain object inherits from
    [Object.prototype].  Reading one of them off an object that has no
    own property of that name yields the inherited member, a function or
    (for [__proto__]) the prototype object itself, never [undefined]. *)
Definition objectPrototypeMembers : list string :=
  ["constructor"; "__defineGetter__"; "__defineSetter__"; "hasOwnProperty";
   "__lookupGetter__"; "__lookupSetter__"; "isPrototypeOf";
   "propertyIsEnumerable"; "toString"; "valueOf"; "__proto__";
   "toLocaleString"].

Definition inheritedMember (key : string) : bool :=
  existsb (String.eqb key) objectPrototypeMembers.

End JS.

(** ** AdminLiveMap.tsx *)

Module LiveMap.

(** [type DriverLocation] *)
Record DriverLocation := mkLocation {
  latitude : float;
  longitude : float;
  updatedAt : Z
}.

(** [type LocationEvent]; the two coordinate fields carry the suffix
    [_ev] because a record field name is global to the module. *)
Record LocationEvent := mkLocationEvent {
  driverId : string;
  latitude_ev : float;
  longitude_ev : float
}.

(** [Record<string, DriverLocation>]: the own properties of the state
    [locationsByDriverId], a plain object.  What a read of the object
    yields is [get] below. *)
Abbreviation Locations := (gmap string DriverLocation).

(** [useState<Record<string, DriverLocation>>({})] *)
Definition initialLocations : Locations := ∅.

(** The state updater inside [onLocation]:
    [(prev) => ({ ...prev, [data.driverId]: {latitude, longitude,
    updatedAt: Date.now()} })].  The reading of the clock is the
    argument [now]. *)
Definition onLocation (now : Z) (data : LocationEvent) (prev : Locations)
  : Locations :=
  <[ driverId data :=
       {| latitude := latitude_ev data;
          longitude := longitude_ev data;
          updatedAt := now |} ]> prev.

(** What the expression [locationsByDriverId[id]] evaluates to: the
    entry written for [id] when the object has it as an own property (the
    spread and the computed key of [onLocation] create own properties, also
    for a key such as [__proto__]); otherwise the member inherited from
    [Object.prototype] when [id] names one; otherwise [undefined]. *)
Inductive PropertyRead :=
| OwnEntry (loc : DriverLocation)
| InheritedMember
| Absent.

(** [locationsByDriverId[id]] *)
Definition get (entityId : string) (locs : Locations) : PropertyRead :=
  match locs !! entityId with
  | Some loc => OwnEntry loc
  | None => if JS.inheritedMember entityId then InheritedMember else Absent
  end.

(** A run of location events, each with the clock reading at which its
    handler ran, applied in arrival order. *)
Definition recordAll (events : list (Z * LocationEvent)) (locs : Locations)
  : Locations :=
  foldl (fun acc e => onLocation e.1 e.2 acc) locs events.

(** The last event of a run that concerns [entityId], if any. *)
Definition lastEventFor (entityId : string) (events : list (Z * LocationEvent))
  : option LocationEvent :=
  snd <$> last (filter (fun e => driverId e.2 = entityId) events).


(** The fields of a snapshot driver ([DriverSummary] of [types.ts]) that
    the map reads.  [status] is typed [string], so [String(d.status)] is
    the status itself. *)
Record DriverSummary := mkDriver {
  driver_id : string;
  status : string
}.

(** What a field typed [number] holds at run time: a number, or
    [undefined] when it was read off an object that has no such field. *)
Inductive Coordinate :=
| Num (x : float)
| Undefined.

(** [{ id: string; position: [number, number] }] *)
Record Marker := mkMarker {
  marker_id : string;
  position : Coordinate * Coordinate
}.

(** [.filter(Boolean)] on an array of objects and [null]s. *)
Definition filterBoolean {A : Type} (l : list (option A)) : list A :=
  omap (fun x => x) l.

(** The callback given to [.map] in both projections. *)
Definition toMarker (locationsByDriverId : Locations) (d : DriverSummary)
  : option Marker :=
  match get (driver_id d) locationsByDriverId with
  | Absent => None
  | OwnEntry loc =>
      Some {| marker_id := driver_id d;
              position := (Num (latitude loc), Num (longitude loc)) |}
  | InheritedMember =>
      Some {| marker_id := driver_id d;
              position := (Undefined, Undefined) |}
  end.

Definition availableMarkers (drivers : list DriverSummary)
    (locationsByDriverId : Locations) : list Marker :=
  filterBoolean
    (map (toMarker locationsByDriverId)
       (filter (fun d => JS.toLowerCase (status d) = "online") drivers)).

Definition engagedMarkers (drivers : list DriverSummary)
    (locationsByDriverId : Locations) : list Marker :=
  filterBoolean
    (map (toMarker locationsByDriverId)
       (filter (fun d => let s := JS.toLowerCase (status d) in
                         s = "busy" ∨ s = "on_trip") drivers)).

(** [useState<'supply' | 'demand'>('supply')] *)
Inductive HeatMode := supply | demand.

(** The fields of a live ride that the heat layer reads. *)
Record LiveRide := mkRide {
  originLatitude : float;
  originLongitude : float
}.

(** [[number, number, number]]: latitude, longitude, weight. *)
Definition HeatPoint : Type := Coordinate * Coordinate * float.

Definition weight (p : HeatPoint) : float := p.2.

(** [heatPoints]; [rides] is [liveRides?.rides], absent until the first
    poll has answered. *)
Definition heatPoints (heatMode : HeatMode) (rides : option (list LiveRide))
    (availableMarkers engagedMarkers : list Marker) : list HeatPoint :=
  match heatMode with
  | demand =>
      map (fun r => (Num (originLatitude r), Num (originLongitude r), 1%float))
        (List.filter
           (fun r => JS.Number_isFinite (originLatitude r)
                     && JS.Number_isFinite (originLongitude r))
           (default [] rides))
  | supply =>
      let engaged :=
        map (fun m => ((position m).1, (position m).2, 1%float))
          engagedMarkers in
      let available :=
        map (fun m => ((position m).1, (position m).2, 0.4%float))
          availableMarkers in
      (available ++ engaged)%list
  end.

(** The state of a mounted [AdminLiveMap]. *)
Record Component := mkComponent {
  locationsByDriverId : Locations;
  heatMode : HeatMode
}.

Definition mount : Component :=
  {| locationsByDriverId := initialLocations; heatMode := supply |}.

(** The point cloud the component hands to [HeatLayer], from the two
    polled snapshots and its own state. *)
Definition renderedHeatPoints (drivers : list DriverSummary)
    (rides : option (list LiveRide)) (c : Component) : list HeatPoint :=
  heatPoints (heatMode c) rides
    (availableMarkers drivers (locationsByDriverId c))
    (engagedMarkers drivers (locationsByDriverId c)).

(** [HeatLayer]: the radius handed to [L.heatLayer] at mount and to
    [heat.setOptions] on every [zoomend]. *)
Definition baseRadius : float := 26%float.
Definition zoomFactor : float := 0.2%float.

Definition adjustedRadius (currentZoom : float) : float :=
  (baseRadius * (1 + (12 - currentZoom) * zoomFactor))%float.

Definition heatRadius (currentZoom : float) : float :=
  JS.Math_max 10%float (JS.Math_min 50%float (adjustedRadius currentZoom)).

(** The same formula over the rationals: what the expression denotes
    when no operation rounds. *)
Definition adjustedRadius_exact (z : Q) : Q :=
  (26 * (1 + (12 - z) * (2 # 10)))%Q.

Definition heatRadius_exact (z : Q) : Q :=
  Qmax 10 (Qmin 50 (adjustedRadius_exact z)).

(** A Leaflet zoom level: the map snaps its zoom to whole numbers
    ([zoomSnap] is left at its default), so [map.getZoom()] answers the
    double of an integer. *)
Definition zoomLevel (k : Z) : float :=
  if (k <? 0)%Z then (- of_uint63 (Uint63.of_Z (- k)))%float
  else of_uint63 (Uint63.of_Z k).

(** The React keys of the two marker lists: [`avail_${m.id}`] and
    [`eng_${m.id}`]. *)
Definition availableKey (m : Marker) : string := "avail_" ++ marker_id m.
Definition engagedKey (m : Marker) : string := "eng_" ++ marker_id m.

(** The keys of all [Marker] elements of one render, in render order. *)
Definition markerKeys (drivers : list DriverSummary) (locs : Locations)
  : list string :=
  ((availableKey <$> availableMarkers drivers locs)
   ++ (engagedKey <$> engagedMarkers drivers locs))%list.

(** The layer [HeatLayer] keeps on the map: its points and its current
    radius.  The other options ([blur], [maxZoom], [gradient]) are
    constants. *)
Record HeatLayerState := mkHeatLayer {
  layerPoints : list HeatPoint;
  radius : float
}.

(** The body of the effect of [HeatLayer]: no layer for an empty cloud,
    else a layer whose radius follows the zoom the map has at that
    moment. *)
Definition addHeatLayer (points : list HeatPoint) (currentZoom : float)
  : option HeatLayerState :=
  match points with
  | [] => None
  | _ :: _ =>
      let adjustedRadius :=
        (baseRadius * (1 + (12 - currentZoom) * zoomFactor))%float in
      Some {| layerPoints := points;
              radius := JS.Math_max 10%float (JS.Math_min 50%float adjustedRadius) |}
  end.

(** [onZoom], the [zoomend] listener of a layer. *)
Definition onZoom (newZoom : float) (heat : HeatLayerState) : HeatLayerState :=
  let newRadius := (baseRadius * (1 + (12 - newZoom) * zoomFactor))%float in
  {| layerPoints := layerPoints heat;
     radius := JS.Math_max 10%float (JS.Math_min 50%float newRadius) |}.

(** A layer after a run of [zoomend] events, each with the zoom the map
    reports at that moment. *)
Definition zoomAll (zooms : list float) (heat : HeatLayerState) : HeatLayerState :=
  foldl (fun acc z => onZoom z acc) heat zooms.

End LiveMap.

(** ** SignalRContext.tsx *)

Module Hub.

(** [signalR.HubConnectionState] *)
Inductive HubConnectionState :=
| Disconnected | Connecting | Connected | Disconnecting | Reconnecting.

(** [interface DriverEvent].  A field is [None] when the payload does not
    carry it (it reads as [undefined]). *)
Record DriverEvent := mkDriverEvent {
  id : option string;
  fullName : option string
}.

(** The argument a handler is called with: the transport passes on
    whatever the server sent, an object or nothing at all. *)
Inductive Payload :=
| PUndefined
| PNull
| PObject (driver : DriverEvent).

(** [interface AdminToast] *)
Record AdminToast := mkToast {
  title : string;
  message : string
}.

(** A query key such as [['drivers']] or [['driver', driver.id]]; an
    element is [None] where the source expression is [undefined]. *)
Definition QueryKey : Type := list (option string).

(** What the provider owns: its two pieces of React state, the timeout
    ref, the browser's pending timeouts, and the keys passed so far to
    [queryClient.invalidateQueries] (the query groups marked stale). *)
Record State := mkState {
  connectionState : HubConnectionState;
  toast : option AdminToast;
  toastTimeoutRef : option nat;
  pendingTimeouts : gset nat;
  nextTimeout : nat;
  stale : gset QueryKey
}.

(** [useState(HubConnectionState.Disconnected)], [useState(null)],
    [useRef(null)]. *)
Definition initial : State :=
  {| connectionState := Disconnected;
     toast := None;
     toastTimeoutRef := None;
     pendingTimeouts := ∅;
     nextTimeout := 1;
     stale := ∅ |}.

(** [isConnected] of the context value. *)
Definition isConnected (st : State) : bool :=
  match connectionState st with Connected => true | _ => false end.

(** *** Handlers run in a state-and-exception monad *)

Inductive Completion (A : Type) :=
| Normal (a : A)
| TypeError.
Arguments Normal {A} a.
Arguments TypeError {A}.

Definition M (A : Type) : Type := State → Completion A * State.

#[export] Instance M_ret : MRet M := fun A a st => (Normal a, st).
#[export] Instance M_bind : MBind M := fun A B k m st =>
  match m st with
  | (Normal a, st') => k a st'
  | (TypeError, st') => (TypeError, st')
  end.

Definition modify (f : State → State) : M unit :=
  fun st => (Normal tt, f st).

Definition read {A : Type} (f : State → A) : M A :=
  fun st => (Normal (f st), st).

Definition throw {A : Type} : M A := fun st => (TypeError, st).

(** [driver.field]: reading a property of [undefined] or [null] throws. *)
Definition prop {A : Type} (field : DriverEvent → A) (driver : Payload) : M A :=
  match driver with
  | PObject d => mret (field d)
  | PUndefined | PNull => throw
  end.

Definition setConnectionState (s : HubConnectionState) : M unit :=
  modify (fun st =>
    {| connectionState := s; toast := toast st;
       toastTimeoutRef := toastTimeoutRef st;
       pendingTimeouts := pendingTimeouts st;
       nextTimeout := nextTimeout st; stale := stale st |}).

Definition setToast (t : option AdminToast) : M unit :=
  modify (fun st =>
    {| connectionState := connectionState st; toast := t;
       toastTimeoutRef := toastTimeoutRef st;
       pendingTimeouts := pendingTimeouts st;
       nextTimeout := nextTimeout st; stale := stale st |}).

Definition setToastTimeoutRef (r : option nat) : M unit :=
  modify (fun st =>
    {| connectionState := connectionState st; toast := toast st;
       toastTimeoutRef := r;
       pendingTimeouts := pendingTimeouts st;
       nextTimeout := nextTimeout st; stale := stale st |}).

(** [window.clearTimeout(h)] *)
Definition clearTimeout (h : nat) : M unit :=
  modify (fun st =>
    {| connectionState := connectionState st; toast := toast st;
       toastTimeoutRef := toastTimeoutRef st;
       pendingTimeouts := pendingTimeouts st ∖ {[ h ]};
       nextTimeout := nextTimeout st; stale := stale st |}).

(** [window.setTimeout(callback, 6000)]: a fresh positive handle. *)
Definition setTimeout : M nat :=
  fun st =>
    (Normal (nextTimeout st),
     {| connectionState := connectionState st; toast := toast st;
        toastTimeoutRef := toastTimeoutRef st;
        pendingTimeouts := {[ nextTimeout st ]} ∪ pendingTimeouts st;
        nextTimeout := S (nextTimeout st); stale := stale st |}).

(** [queryClient.invalidateQueries({ queryKey })] *)
Definition invalidateQueries (queryKey : QueryKey) : M unit :=
  modify (fun st =>
    {| connectionState := connectionState st; toast := toast st;
       toastTimeoutRef := toastTimeoutRef st;
       pendingTimeouts := pendingTimeouts st;
       nextTimeout := nextTimeout st;
       stale := {[ queryKey ]} ∪ stale st |}).

Definition showToast (next : AdminToast) : M unit :=
  ref ← read toastTimeoutRef;
  match ref with
  | Some h => clearTimeout h
  | None => mret tt
  end ;;
  setToast (Some next) ;;
  h ← setTimeout;
  setToastTimeoutRef (Some h).

(** The callback of that timeout; a cleared timeout never runs. *)
Definition toastTimeout (h : nat) : M unit :=
  pending ← read pendingTimeouts;
  if decide (h ∈ pending) then
    clearTimeout h ;; setToast None ;; setToastTimeoutRef None
  else mret tt.

(** [driver.fullName || 'A driver'] *)
Definition displayName (fullName : option string) : string :=
  default "A driver" (JS.or_else fullName (Some "A driver")).

(** The five handlers registered with [newConnection.on].  The calls to
    [console.log] are left out: they change nothing the provider owns
    and accept any value. *)
Definition onDriverRegistered (driver : Payload) : M unit :=
  name ← prop fullName driver;
  showToast {| title := "New driver registration";
               message := displayName name ++ " is pending approval." |} ;;
  invalidateQueries [Some "pendingDrivers"] ;;
  invalidateQueries [Some "adminStats"].

Definition onDriverApproved (driver : Payload) : M unit :=
  name ← prop fullName driver;
  showToast {| title := "Driver approved";
               message := displayName name ++ " was approved." |} ;;
  invalidateQueries [Some "pendingDrivers"] ;;
  invalidateQueries [Some "drivers"] ;;
  invalidateQueries [Some "adminStats"] ;;
  i ← prop id driver;
  invalidateQueries [Some "driver"; i].

Definition onDriverRejected (driver : Payload) : M unit :=
  name ← prop fullName driver;
  showToast {| title := "Driver rejected";
               message := displayName name ++ " was rejected." |} ;;
  invalidateQueries [Some "pendingDrivers"] ;;
  invalidateQueries [Some "drivers"] ;;
  invalidateQueries [Some "adminStats"] ;;
  i ← prop id driver;
  invalidateQueries [Some "driver"; i].

Definition onDriverStatusChanged (data : Payload) : M unit :=
  invalidateQueries [Some "drivers"] ;;
  invalidateQueries [Some "adminStats"] ;;
  i ← prop id data;
  invalidateQueries [Some "driver"; i].

Definition onDriverLocationUpdated (data : LiveMap.LocationEvent) : M unit :=
  mret tt.

(** The connection's lifecycle callbacks and the two outcomes of
    [newConnection.start()].  [invoke('JoinAdminRoom')] is a message to
    the server and changes nothing here. *)
Definition onclose : M unit := setConnectionState Disconnected.
Definition onreconnecting : M unit := setConnectionState Reconnecting.
Definition onreconnected : M unit := setConnectionState Connected.
Definition startResolved : M unit := setConnectionState Connected.
Definition startRejected : M unit := setConnectionState Disconnected.

(** The dismiss button of the toast: [onClick={() => setToast(null)}]. *)
Definition dismissToast : M unit := setToast None.

(** The cleanup of the provider's effect, run on unmount: the pending
    toast timeout, if the ref holds one, is cleared.  ([newConnection.stop()]
    is a request to the transport; its close callback arrives as a
    lifecycle signal.) *)
Definition cleanup : M unit :=
  ref ← read toastTimeoutRef;
  match ref with
  | Some h => clearTimeout h
  | None => mret tt
  end.

(** *** The hub endpoint *)

(** [import.meta.env]: a variable is a string or is not defined. *)
Record Env := mkEnv {
  VITE_HUB_API_URL : option string;
  VITE_HUB_URL : option string;
  VITE_API_URL : option string
}.

Definition stripTrailingSlash (url : string) : string :=
  if JS.endsWith url "/" then JS.dropLast 1 url else url.

(** [/^https?:\/\//i.test(s)] *)
Definition isHttpUrl (s : string) : bool :=
  JS.startsWith (JS.toLowerCase s) "http://"
  || JS.startsWith (JS.toLowerCase s) "https://".

(** [s.replace(/\/api$/i, '')] *)
Definition removeApiSuffix (s : string) : string :=
  if JS.endsWith (JS.toLowerCase s) "/api" then JS.dropLast 4 s else s.

Definition fallbackHubUrl : string := "https://ecoride-4560.onrender.com/hubs".

Definition resolveHubBaseUrl (env : Env) : string :=
  let explicit := JS.or_else (VITE_HUB_API_URL env) (VITE_HUB_URL env) in
  if JS.truthy explicit then stripTrailingSlash (default "" explicit)
  else
    let api := VITE_API_URL env in
    if JS.truthy api && isHttpUrl (default "" api) then
      let origin := removeApiSuffix (stripTrailingSlash (default "" api)) in
      origin ++ "/hubs"
    else fallbackHubUrl.

End Hub.

(** ** The running dashboard: provider and map on one connection *)

Module App.
Import Hub.

(** The provider's state and, while the dashboard page shows it, the
    state of the map.  The map's effect subscribes its own
    [onLocation] to [DriverLocationUpdated] on the provider's
    connection. *)
Record State := mkApp {
  hub : Hub.State;
  liveMap : option LiveMap.Component
}.

Definition initial : State := {| hub := Hub.initial; liveMap := None |}.

(** The messages the server sends to the admin room. *)
Inductive Message :=
| DriverRegistered (driver : Payload)
| DriverApproved (driver : Payload)
| DriverRejected (driver : Payload)
| DriverStatusChanged (data : Payload)
| DriverLocationUpdated (data : LiveMap.LocationEvent).

(** The signals of the connection itself. *)
Inductive Signal :=
| StartResolved | StartRejected | Close | OnReconnecting | OnReconnected.

(** Everything that can run a callback of the two modules. *)
Inductive Event :=
| Push (now : Z) (m : Message)
| Lifecycle (s : Signal)
| ToastTimeout (h : nat)
| DismissToast
| MountMap
| UnmountMap
| SetHeatMode (mode : LiveMap.HeatMode).

(** The provider's handler for a message. *)
Definition providerHandler (m : Message) : M unit :=
  match m with
  | DriverRegistered driver => onDriverRegistered driver
  | DriverApproved driver => onDriverApproved driver
  | DriverRejected driver => onDriverRejected driver
  | DriverStatusChanged data => onDriverStatusChanged data
  | DriverLocationUpdated data => onDriverLocationUpdated data
  end.

Definition signalHandler (s : Signal) : M unit :=
  match s with
  | StartResolved => startResolved
  | StartRejected => startRejected
  | Close => onclose
  | OnReconnecting => onreconnecting
  | OnReconnected => onreconnected
  end.

(** The map's handler for a message: it listens to one event only. *)
Definition mapHandler (now : Z) (m : Message) (c : LiveMap.Component)
  : LiveMap.Component :=
  match m with
  | DriverLocationUpdated data =>
      {| LiveMap.locationsByDriverId :=
           LiveMap.onLocation now data (LiveMap.locationsByDriverId c);
         LiveMap.heatMode := LiveMap.heatMode c |}
  | _ => c
  end.

(** The provider's state after a callback has run.  An exception leaves
    the callback where it is raised; the connection catches it, so what
    was done before it stays done. *)
Definition run (m : M unit) (st : Hub.State) : Hub.State := (m st).2.

Definition withHub (f : Hub.State → Hub.State) (st : State) : State :=
  {| hub := f (hub st); liveMap := liveMap st |}.

Definition withMap (f : LiveMap.Component → LiveMap.Component) (st : State)
  : State :=
  {| hub := hub st; liveMap := f <$> liveMap st |}.

(** One callback dispatch.  For a message the connection calls the
    handlers in the order of registration: the provider's, then the
    map's. *)
Definition step (e : Event) (st : State) : State :=
  match e with
  | Push now m => withMap (mapHandler now m) (withHub (run (providerHandler m)) st)
  | Lifecycle s => withHub (run (signalHandler s)) st
  | ToastTimeout h => withHub (run (toastTimeout h)) st
  | DismissToast => withHub (run dismissToast) st
  | MountMap => {| hub := hub st; liveMap := Some LiveMap.mount |}
  | UnmountMap => {| hub := hub st; liveMap := None |}
  | SetHeatMode mode =>
      withMap (fun c => {| LiveMap.locationsByDriverId := LiveMap.locationsByDriverId c;
                           LiveMap.heatMode := mode |}) st
  end.

Definition steps (es : list Event) (st : State) : State :=
  foldl (fun acc e => step e acc) st es.

(** What the connection-state indicator shows after each event of a
    run, in order. *)
Fixpoint indicatorTrace (es : list Event) (st : State)
  : list HubConnectionState :=
  match es with
  | [] => []
  | e :: es' =>
      let st' := step e st in
      connectionState (hub st') :: indicatorTrace es' st'
  end.

(** The location cache of the map, when one is mounted. *)
Definition locationCache (st : State) : option LiveMap.Locations :=
  LiveMap.locationsByDriverId <$> liveMap st.

End App.

(** ** api.ts: the REST base URL *)

Module Api.

(** [stripTrailingSlash] of [api.ts], a second copy of the one in
    [SignalRContext.tsx]. *)
Definition stripTrailingSlash (url : string) : string :=
  if JS.endsWith url "/" then JS.dropLast 1 url else url.

Definition fallbackApiBase : string := "https://ecoride-4560.onrender.com/api".

(** [resolveApiBase]; the argument is [import.meta.env.VITE_API_URL]. *)
Definition resolveApiBase (configured : option string) : string :=
  if negb (JS.truthy configured) then fallbackApiBase
  else
    let base := stripTrailingSlash (default "" configured) in
    if Hub.isHttpUrl base && negb (JS.endsWith (JS.toLowerCase base) "/api")
    then base ++ "/api"
    else base.

End Api.

(** ** SignalRContext.tsx: [useDriverUpdates] *)

Module DriverRoom.

(** A call of [connection.invoke] made by the hook, with the connection
    it is made on. *)
Inductive Invocation :=
| JoinDriverRoom (connection : nat) (driverId : string)
| LeaveDriverRoom (connection : nat) (driverId : string).

(** The dependency array [[connection, isConnected, driverId]]. *)
Record Deps := mkDeps {
  connection : option nat;
  isConnected : bool;
  driverId : option string
}.

#[export] Instance Deps_eq_dec : EqDecision Deps.
Proof. solve_decision. Defined.

(** The cleanup an effect run returns: none after the early [return],
    else a closure over the connection and the driver id. *)
Definition Cleanup : Type := option (nat * string).

(** One run of the effect body: the calls it makes and its cleanup. *)
Definition effect (d : Deps) : list Invocation * Cleanup :=
  match connection d, isConnected d, driverId d with
  | Some c, true, Some i =>
      if String.eqb i "" then ([], None)
      else ([JoinDriverRoom c i], Some (c, i))
  | _, _, _ => ([], None)
  end.

Definition runCleanup (c : Cleanup) : list Invocation :=
  match c with
  | Some (conn, i) => [LeaveDriverRoom conn i]
  | None => []
  end.

(** A mounted hook: the dependencies of its last effect run, the cleanup
    that run returned, and every call made so far. *)
Record Hook := mkHook {
  deps : option Deps;
  cleanup : Cleanup;
  invoked : list Invocation
}.

Definition mounting : Hook := {| deps := None; cleanup := None; invoked := [] |}.

(** A render with dependencies [d]: when they differ from those of the
    last run, React runs the pending cleanup and then the effect. *)
Definition render (d : Deps) (h : Hook) : Hook :=
  if decide (deps h = Some d) then h
  else
    {| deps := Some d;
       cleanup := (effect d).2;
       invoked := (invoked h ++ runCleanup (cleanup h) ++ (effect d).1)%list |}.

(** Unmounting runs the pending cleanup. *)
Definition unmount (h : Hook) : Hook :=
  {| deps := None;
     cleanup := None;
     invoked := (invoked h ++ runCleanup (cleanup h))%list |}.

Definition renders (ds : list Deps) (h : Hook) : Hook :=
  foldl (fun acc d => render d acc) h ds.

End DriverRoom.

(** ** Vocabulary of the statements *)

Module Spec.
Import LiveMap.

(** A driver the projection counts as available, resp. engaged: the
    tests of the two [.filter] callbacks. *)
Definition isAvailable (d : DriverSummary) : Prop :=
  JS.toLowerCase (status d) = "online".

Definition isEngaged (d : DriverSummary) : Prop :=
  JS.toLowerCase (status d) = "busy" ∨ JS.toLowerCase (status d) = "on_trip".

(** The marker of a driver seen at a cached location. *)
Definition markerOf (d : DriverSummary) (loc : DriverLocation) : Marker :=
  {| marker_id := driver_id d;
     position := (Num (latitude loc), Num (longitude loc)) |}.

(** The marker a driver gets when the read of its id yields an inherited
    member: both coordinates are [undefined]. *)
Definition unlocatedMarker (d : DriverSummary) : Marker :=
  {| marker_id := driver_id d; position := (Undefined, Undefined) |}.

(** [m] is the marker the projection makes for driver [d]: at the
    entry written for its id; or, when no entry was written and the id
    names a member inherited from [Object.prototype], with both
    coordinates [undefined].  A driver with neither gets no marker. *)
Definition shows (locs : Locations) (d : DriverSummary) (m : Marker) : Prop :=
  (∃ loc, locs !! driver_id d = Some loc ∧ m = markerOf d loc)
  ∨ (locs !! driver_id d = None ∧ JS.inheritedMember (driver_id d) = true
     ∧ m = unlocatedMarker d).

(** Two characters that are equal, or the capital and the small form of
    one letter of the basic Latin alphabet. *)
Definition differInCaseOnly (a b : ascii) : Prop :=
  let x := nat_of_ascii a in
  let y := nat_of_ascii b in
  x = y ∨ ((65 ≤ x ≤ 90)%nat ∧ y = (x + 32)%nat)
  ∨ ((65 ≤ y ≤ 90)%nat ∧ x = (y + 32)%nat).

(** Two strings that differ at most in letter case. *)
Fixpoint sameIgnoringCase (s t : string) : Prop :=
  match s, t with
  | EmptyString, EmptyString => True
  | String a s', String b t' => differInCaseOnly a b ∧ sameIgnoringCase s' t'
  | _, _ => False
  end.

(** [a <= b] on numbers. *)
Definition float_le (a b : float) : Prop := (a <=? b)%float = true.

(** The heat point drawn for a marker with a given weight. *)
Definition pointOf (w : float) (m : Marker) : HeatPoint :=
  ((position m).1, (position m).2, w).

(** A callback leaves an observation of the provider's state as it was,
    whether it returns or throws. *)
Definition keeps {A B : Type} (f : Hub.State → B) (m : Hub.M A) : Prop :=
  ∀ st, f (m st).2 = f st.

(** A callback returns normally and shows the toast [t]. *)
Definition showsToast (t : Hub.AdminToast) (m : Hub.M unit) : Prop :=
  ∀ st, ∃ st', m st = (Hub.Normal tt, st') ∧ Hub.toast st' = Some t.

(** A callback returns normally and leaves the toast as it is. *)
Definition quiet (m : Hub.M unit) : Prop :=
  ∀ st, ∃ st', m st = (Hub.Normal tt, st') ∧ Hub.toast st' = Hub.toast st.

(** The hub URL derived from a REST base URL: one trailing slash and a
    trailing [/api] segment removed, then [/hubs]. *)
Definition hubUrlFromApi (api : string) : string :=
  Hub.removeApiSuffix (Hub.stripTrailingSlash api) ++ "/hubs".

(** The explicit hub override of an environment. *)
Definition explicitOverride (env : Hub.Env) : option string :=
  JS.or_else (Hub.VITE_HUB_API_URL env) (Hub.VITE_HUB_URL env).

(** The four query groups of the routing table for an approved or
    rejected driver. *)
Definition approvalGroups (driverId : option string) : gset Hub.QueryKey :=
  {[ [Some "pendingDrivers"]; [Some "drivers"]; [Some "adminStats"];
     [Some "driver"; driverId] ]}.

(** A test holds at each of the [n] integers from [lo] upwards. *)
Fixpoint forallZ (p : Z → bool) (lo : Z) (n : nat) : bool :=
  match n with
  | O => true
  | S n' => p lo && forallZ p (lo + 1) n'
  end.

(** The radius at an integer zoom level is within the clamp. *)
Definition clampedAt (k : Z) : bool :=
  ((10 <=? heatRadius (zoomLevel k)) && (heatRadius (zoomLevel k) <=? 50))%float.

(** The radius at [k1] is at least the radius at every level from [k1]
    up to [hi]. *)
Definition dominatesUpTo (hi k1 : Z) : bool :=
  forallZ (fun k2 => (heatRadius (zoomLevel k2) <=? heatRadius (zoomLevel k1))%float)
    k1 (Z.to_nat (hi - k1 + 1)).

(** The full record a cache entry has after an event handled at [now]. *)
Definition entryOf (e : Z * LocationEvent) : DriverLocation :=
  {| latitude := latitude_ev e.2; longitude := longitude_ev e.2;
     updatedAt := e.1 |}.

(** The last event of a run that concerns [entityId], with its time. *)
Definition lastArrivalFor (entityId : string) (events : list (Z * LocationEvent))
  : option (Z * LocationEvent) :=
  last (filter (fun e => driverId e.2 = entityId) events).

(** A number that is not [NaN]. *)
Definition isNumber (x : float) : Prop := is_nan x = false.

(** The provider's timeout bookkeeping is in order: the one pending
    timeout is the one the ref holds, a visible toast has one, and the
    handle is one already handed out. *)
Definition timersConsistent (st : Hub.State) : Prop :=
  Hub.pendingTimeouts st
  = match Hub.toastTimeoutRef st with Some h => {[ h ]} | None => ∅ end
  ∧ (is_Some (Hub.toast st) → is_Some (Hub.toastTimeoutRef st))
  ∧ (∀ h, Hub.toastTimeoutRef st = Some h → (h < Hub.nextTimeout st)%nat).

(** The lifecycle signals of a run of events, in order. *)
Definition signalsOf (es : list App.Event) : list App.Signal :=
  omap (fun e => match e with App.Lifecycle s => Some s | _ => None end) es.

(** The query groups of the routing table for a message whose payload is
    the object [d]. *)
Definition routedGroups (m : App.Message) : gset Hub.QueryKey :=
  match m with
  | App.DriverRegistered (Hub.PObject _) =>
      {[ [Some "pendingDrivers"]; [Some "adminStats"] ]}
  | App.DriverApproved (Hub.PObject d) | App.DriverRejected (Hub.PObject d) =>
      {[ [Some "pendingDrivers"]; [Some "drivers"]; [Some "adminStats"];
         [Some "driver"; Hub.id d] ]}
  | App.DriverStatusChanged (Hub.PObject d) =>
      {[ [Some "drivers"]; [Some "adminStats"]; [Some "driver"; Hub.id d] ]}
  | App.DriverStatusChanged _ =>
      {[ [Some "drivers"]; [Some "adminStats"] ]}
  | _ => ∅
  end.

(** The room a log of calls leaves joined, when the log is well
    bracketed: a join only while no room is joined, a leave only of the
    room that is joined.  [None] when the log breaks that discipline. *)
Fixpoint bracketed (joined : DriverRoom.Cleanup) (log : list DriverRoom.Invocation)
  : option DriverRoom.Cleanup :=
  match log with
  | [] => Some joined
  | DriverRoom.JoinDriverRoom c i :: log' =>
      match joined with
      | None => bracketed (Some (c, i)) log'
      | Some _ => None
      end
  | DriverRoom.LeaveDriverRoom c i :: log' =>
      if decide (joined = Some (c, i)) then bracketed None log' else None
  end.

(** A callback keeps an invariant of the provider's state, whether it
    returns or throws. *)
Definition preserves {A : Type} (I : Hub.State → Prop) (m : Hub.M A) : Prop :=
  ∀ st, I st → I (m st).2.

(** What the timeout bookkeeping looks at. *)
Definition timerView (st : Hub.State)
  : option Hub.AdminToast * option nat * gset nat * nat :=
  (Hub.toast st, Hub.toastTimeoutRef st, Hub.pendingTimeouts st,
   Hub.nextTimeout st).

(** A message whose handler can read the fields it needs: a location
    update, or a driver event whose payload is an object. *)
Definition carriesObject (m : App.Message) : bool :=
  match m with
  | App.DriverRegistered (Hub.PObject _)
  | App.DriverApproved (Hub.PObject _)
  | App.DriverRejected (Hub.PObject _)
  | App.DriverStatusChanged (Hub.PObject _)
  | App.DriverLocationUpdated _ => true
  | _ => false
  end.

(** The state the indicator shows after a run whose lifecycle signals
    are [signals]. *)
Definition stateAfter (signals : list App.Signal) : Hub.HubConnectionState :=
  match last signals with
  | Some App.StartResolved | Some App.OnReconnected => Hub.Connected
  | Some App.OnReconnecting => Hub.Reconnecting
  | Some App.StartRejected | Some App.Close | None => Hub.Disconnected
  end.

(** The location updates of a run of events, each with the clock reading
    at which it was handled. *)
Definition locationEventsOf (es : list App.Event) : list (Z * LocationEvent) :=
  omap (fun e => match e with
                 | App.Push now (App.DriverLocationUpdated data) => Some (now, data)
                 | _ => None
                 end) es.

(** An event that neither mounts nor unmounts the map. *)
Definition keepsMapMounted (e : App.Event) : Prop :=
  e ≠ App.MountMap ∧ e ≠ App.UnmountMap.

End Spec.

(** ** Location cache: last write wins *)

Module LocationCacheFacts.
Import LiveMap.

Lemma recordAll_snoc events now data locs :
  recordAll (events ++ [(now, data)]) locs
  = onLocation now data (recordAll events locs).
Proof. unfold recordAll. by rewrite foldl_app. Qed.

Lemma get_onLocation_same now data locs :
  get (driverId data) (onLocation now data locs)
  = OwnEntry (mkLocation (latitude_ev data) (longitude_ev data) now).
Proof. unfold get, onLocation. by rewrite lookup_insert_eq. Qed.

Lemma get_onLocation_other now data locs entityId :
  driverId data ≠ entityId →
  get entityId (onLocation now data locs) = get entityId locs.
Proof. intros Hne. unfold get, onLocation. by rewrite lookup_insert_ne. Qed.

Lemma lastEventFor_snoc entityId events now data :
  lastEventFor entityId (events ++ [(now, data)])
  = if decide (driverId data = entityId) then Some data
    else lastEventFor entityId events.
Proof.
  unfold lastEventFor. rewrite filter_app, filter_cons, filter_nil. simpl.
  case_decide.
  - by rewrite last_snoc.
  - by rewrite app_nil_r.
Qed.

(** Reading an id after a run of events, from any starting cache. *)
Lemma get_recordAll events locs entityId :
  match lastEventFor entityId events with
  | Some data =>
      ∃ now, get entityId (recordAll events locs)
             = OwnEntry (mkLocation (latitude_ev data) (longitude_ev data) now)
  | None => get entityId (recordAll events locs) = get entityId locs
  end.
Proof.
  induction events as [|[now data] events IH] using rev_ind.
  - done.
  - rewrite recordAll_snoc, lastEventFor_snoc. case_decide as Hid.
    + subst entityId. exists now. apply get_onLocation_same.
    + by rewrite get_onLocation_other.
Qed.

(** C2, as the code behaves.  After any sequence of location events
    applied to a cache, reading an id yields the entry with exactly the
    latitude and longitude of the last event of the sequence for that id
    (last write wins, whatever was there before); when the sequence has
    no event for the id the read is what it was before.  On the cache of
    a freshly mounted map that read is absent only if the id is not the
    name of a member that a plain object inherits from
    [Object.prototype]: for such a name, [constructor] or [toString] say,
    the read yields the inherited member and not absent, and there the
    code departs from the specification. *)
Theorem location_cache_read_after_events :
  (∀ events locs entityId,
     match lastEventFor entityId events with
     | Some data =>
         ∃ now, get entityId (recordAll events locs)
                = OwnEntry (mkLocation (latitude_ev data) (longitude_ev data) now)
     | None => get entityId (recordAll events locs) = get entityId locs
     end) ∧
  (∀ events entityId data,
     lastEventFor entityId events = Some data →
     ∃ now, get entityId (recordAll events initialLocations)
            = OwnEntry (mkLocation (latitude_ev data) (longitude_ev data) now)) ∧
  (∀ events entityId,
     lastEventFor entityId events = None →
     JS.inheritedMember entityId = false →
     get entityId (recordAll events initialLocations) = Absent) ∧
  (∀ events entityId,
     lastEventFor entityId events = None →
     JS.inheritedMember entityId = true →
     get entityId (recordAll events initialLocations) = InheritedMember) ∧
  get "constructor"
    (recordAll [(0%Z, mkLocationEvent "D1" 1 2)] initialLocations)
  = InheritedMember.
Proof.
  split; [exact get_recordAll|]. split; [|split; [|split]].
  - intros events entityId data Hlast.
    pose proof (get_recordAll events initialLocations entityId) as H.
    by rewrite Hlast in H.
  - intros events entityId Hnone Hplain.
    pose proof (get_recordAll events initialLocations entityId) as H.
    rewrite Hnone in H. rewrite H. unfold get, initialLocations.
    by rewrite lookup_empty, Hplain.
  - intros events entityId Hnone Hinh.
    pose proof (get_recordAll events initialLocations entityId) as H.
    rewrite Hnone in H. rewrite H. unfold get, initialLocations.
    by rewrite lookup_empty, Hinh.
  - reflexivity.
Qed.

Lemma location_cache_read_after_events_witness :
  get "toString" (recordAll [] initialLocations) = InheritedMember.
Proof.
  pose proof location_cache_read_after_events as (_ & _ & _ & H & _).
  apply (H [] "toString"); reflexivity.
Defined.

End LocationCacheFacts.

(** ** Marker projection *)

Module MarkerFacts.
Import LiveMap Spec.

Lemma elem_of_filterBoolean {A : Type} (l : list (option A)) (x : A) :
  x ∈ filterBoolean l ↔ Some x ∈ l.
Proof.
  unfold filterBoolean. rewrite list_elem_of_omap. split.
  - intros (o & Ho & ->). done.
  - intros H. by exists (Some x).
Qed.

Lemma toMarker_Some locs d m :
  toMarker locs d = Some m ↔ shows locs d m.
Proof.
  unfold toMarker, get, shows, markerOf, unlocatedMarker.
  destruct (locs !! driver_id d) as [loc|].
  - split.
    + intros [= <-]. left. by exists loc.
    + intros [(loc' & [= <-] & ->)|(? & _)]; done.
  - destruct (JS.inheritedMember (driver_id d)); split.
    + intros [= <-]. by right.
    + intros [(loc' & ? & _)|(_ & _ & ->)]; done.
    + done.
    + intros [(loc' & ? & _)|(_ & ? & _)]; done.
Qed.

Lemma toMarker_id locs d m : toMarker locs d = Some m → marker_id m = driver_id d.
Proof.
  intros [(loc & _ & ->)|(_ & _ & ->)]%toMarker_Some; done.
Qed.

(** Membership in a projection with an arbitrary status test. *)
Lemma elem_of_projection (P : DriverSummary → Prop) `{!∀ d, Decision (P d)}
    drivers locs m :
  m ∈ filterBoolean (map (toMarker locs) (filter P drivers))
  ↔ ∃ d, d ∈ drivers ∧ P d ∧ shows locs d m.
Proof.
  rewrite elem_of_filterBoolean.
  change (map (toMarker locs) (filter P drivers))
    with (toMarker locs <$> filter P drivers).
  rewrite list_elem_of_fmap. split.
  - intros (d & Hm & Hd). apply list_elem_of_filter in Hd as [HP Hd].
    symmetry in Hm. apply toMarker_Some in Hm. by exists d.
  - intros (d & Hd & HP & Hm). exists d. split.
    + symmetry. by apply toMarker_Some.
    + by apply list_elem_of_filter.
Qed.

Lemma elem_of_availableMarkers drivers locs m :
  m ∈ availableMarkers drivers locs
  ↔ ∃ d, d ∈ drivers ∧ isAvailable d ∧ shows locs d m.
Proof. apply (elem_of_projection (fun d => JS.toLowerCase (status d) = "online")). Qed.

Lemma elem_of_engagedMarkers drivers locs m :
  m ∈ engagedMarkers drivers locs
  ↔ ∃ d, d ∈ drivers ∧ isEngaged d ∧ shows locs d m.
Proof.
  apply (elem_of_projection
           (fun d => JS.toLowerCase (status d) = "busy"
                     ∨ JS.toLowerCase (status d) = "on_trip")).
Qed.

(** The ids of a projection are the ids of the qualifying drivers whose
    read is an entry or an inherited member, in snapshot order and one
    for one. *)
Lemma projection_ids (P : DriverSummary → Prop) `{!∀ d, Decision (P d)}
    drivers (locs : Locations) :
  marker_id <$> filterBoolean (map (toMarker locs) (filter P drivers))
  = driver_id <$> filter (fun d => P d ∧ (is_Some (locs !! driver_id d)
                                          ∨ JS.inheritedMember (driver_id d) = true))
                    drivers.
Proof.
  induction drivers as [|d drivers IH]; [done|].
  rewrite !filter_cons. destruct (decide (P d)) as [HP|HP].
  - simpl. unfold filterBoolean in *. simpl. unfold toMarker at 1. unfold get.
    destruct (locs !! driver_id d) as [loc|] eqn:Hloc.
    + rewrite decide_True by (split; [done|left; by eexists]).
      simpl. f_equal. apply IH.
    + destruct (JS.inheritedMember (driver_id d)) eqn:Hinh.
      * rewrite decide_True by (split; [done|by right]).
        simpl. f_equal. apply IH.
      * rewrite decide_False by (intros [_ [[? ?]|?]]; done). apply IH.
  - rewrite decide_False by (intros [? _]; done). apply IH.
Qed.

Lemma same_id_same_driver (drivers : list DriverSummary) d1 d2 :
  NoDup (driver_id <$> drivers) →
  d1 ∈ drivers → d2 ∈ drivers → driver_id d1 = driver_id d2 → d1 = d2.
Proof.
  induction drivers as [|d drivers IH]; intros Hnd H1 H2 Hid.
  - by apply elem_of_nil in H1.
  - rewrite fmap_cons in Hnd. apply NoDup_cons in Hnd as [Hnotin Hnd].
    apply elem_of_cons in H1 as [->|H1]; apply elem_of_cons in H2 as [->|H2].
    + done.
    + exfalso. apply Hnotin. rewrite Hid. by apply list_elem_of_fmap_2.
    + exfalso. apply Hnotin. rewrite <- Hid. by apply list_elem_of_fmap_2.
    + by apply IH.
Qed.

Lemma available_not_engaged d : isAvailable d → isEngaged d → False.
Proof.
  unfold isAvailable, isEngaged. intros -> [H|H]; discriminate H.
Qed.

Lemma shows_id locs d m : shows locs d m → marker_id m = driver_id d.
Proof. intros [(loc & _ & ->)|(_ & _ & ->)]; done. Qed.

Lemma shows_reads locs d m :
  shows locs d m →
  is_Some (locs !! driver_id d) ∨ JS.inheritedMember (driver_id d) = true.
Proof. intros [(loc & Hloc & _)|(_ & Hinh & _)]; [left; by eexists|by right]. Qed.

(** C1, as the code behaves.  For every snapshot and cache the available
    markers are made exactly from the drivers whose status is online, the
    engaged markers exactly from those whose status is busy or on_trip
    (as members, and id for id in snapshot order), each driver with a
    cached location giving a marker at that location; with pairwise
    distinct ids no id is in both lists; and a driver with no cached
    location is in neither list, provided its id is not the name of a
    member that a plain object inherits from [Object.prototype].  A
    driver whose id is such a name ([constructor], [toString], ...)
    passes the test [!loc] without a cached location and gets a marker
    whose coordinates are [undefined]: there the code departs from the
    specification.  With A online, B on_trip and a location cached for B
    only, the engaged list is B alone and the available list is empty
    when A's id is no such name; when A's id is [constructor] the
    available list holds A. *)
Theorem marker_projection_as_read :
  ∀ (drivers : list DriverSummary) (locs : Locations),
    (∀ m, m ∈ availableMarkers drivers locs
          ↔ ∃ d, d ∈ drivers ∧ isAvailable d ∧ shows locs d m) ∧
    (∀ m, m ∈ engagedMarkers drivers locs
          ↔ ∃ d, d ∈ drivers ∧ isEngaged d ∧ shows locs d m) ∧
    marker_id <$> availableMarkers drivers locs
      = driver_id <$> filter (fun d => isAvailable d
                                       ∧ (is_Some (locs !! driver_id d)
                                          ∨ JS.inheritedMember (driver_id d) = true))
                        drivers ∧
    marker_id <$> engagedMarkers drivers locs
      = driver_id <$> filter (fun d => isEngaged d
                                       ∧ (is_Some (locs !! driver_id d)
                                          ∨ JS.inheritedMember (driver_id d) = true))
                        drivers ∧
    (NoDup (driver_id <$> drivers) →
     ∀ i, i ∈ (marker_id <$> availableMarkers drivers locs) →
          i ∉ (marker_id <$> engagedMarkers drivers locs)) ∧
    (∀ d, d ∈ drivers → locs !! driver_id d = None →
          JS.inheritedMember (driver_id d) = false →
          (driver_id d ∉ (marker_id <$> availableMarkers drivers locs)) ∧
          (driver_id d ∉ (marker_id <$> engagedMarkers drivers locs))) ∧
    (∀ d, d ∈ drivers → locs !! driver_id d = None →
          JS.inheritedMember (driver_id d) = true →
          (isAvailable d → unlocatedMarker d ∈ availableMarkers drivers locs) ∧
          (isEngaged d → unlocatedMarker d ∈ engagedMarkers drivers locs)) ∧
    (∀ a b locB,
       drivers = [mkDriver a "online"; mkDriver b "on_trip"] →
       locs !! a = None → locs !! b = Some locB →
       engagedMarkers drivers locs
       = [mkMarker b (Num (latitude locB), Num (longitude locB))]
       ∧ (JS.inheritedMember a = false → availableMarkers drivers locs = [])
       ∧ (JS.inheritedMember a = true →
          availableMarkers drivers locs = [mkMarker a (Undefined, Undefined)])).
Proof.
  intros drivers locs.
  split; [apply elem_of_availableMarkers|].
  split; [apply elem_of_engagedMarkers|].
  split; [apply (projection_ids (fun d => JS.toLowerCase (status d) = "online"))|].
  split; [apply (projection_ids (fun d => JS.toLowerCase (status d) = "busy"
                                         ∨ JS.toLowerCase (status d) = "on_trip"))|].
  split; [|split; [|split]].
  - intros Hnd i Ha He.
    apply list_elem_of_fmap in Ha as (ma & -> & Ha).
    apply list_elem_of_fmap in He as (me & Hid & He).
    apply elem_of_availableMarkers in Ha as (d1 & Hd1 & Hav & Hs1).
    apply elem_of_engagedMarkers in He as (d2 & Hd2 & Hen & Hs2).
    rewrite (shows_id _ _ _ Hs1), (shows_id _ _ _ Hs2) in Hid.
    assert (d1 = d2) as -> by by apply (same_id_same_driver drivers).
    by apply (available_not_engaged d2).
  - intros d Hd Hnone Hplain. split; intros Hin.
    + apply list_elem_of_fmap in Hin as (m & Hid & Hm).
      apply elem_of_availableMarkers in Hm as (d' & Hd' & _ & Hs).
      rewrite (shows_id _ _ _ Hs) in Hid.
      destruct (shows_reads _ _ _ Hs) as [[loc Hloc]|Hinh];
        rewrite <- Hid in *; congruence.
    + apply list_elem_of_fmap in Hin as (m & Hid & Hm).
      apply elem_of_engagedMarkers in Hm as (d' & Hd' & _ & Hs).
      rewrite (shows_id _ _ _ Hs) in Hid.
      destruct (shows_reads _ _ _ Hs) as [[loc Hloc]|Hinh];
        rewrite <- Hid in *; congruence.
  - intros d Hd Hnone Hinh. split; intros Hs.
    + apply elem_of_availableMarkers. exists d. repeat split; try done.
      by right.
    + apply elem_of_engagedMarkers. exists d. repeat split; try done.
      by right.
  - intros a b locB -> Ha Hb.
    unfold availableMarkers, engagedMarkers, filterBoolean.
    rewrite !filter_cons, !filter_nil. simpl.
    unfold toMarker, get. simpl. rewrite Ha, Hb.
    split; [done|]. split; intros ->; done.
Qed.

Lemma marker_projection_as_read_witness :
  availableMarkers [mkDriver "constructor" "online"; mkDriver "B" "on_trip"]
    {[ "B" := mkLocation (-15.78)%float 35.01%float 0 ]}
  = [mkMarker "constructor" (Undefined, Undefined)].
Proof.
  pose proof (marker_projection_as_read
                [mkDriver "constructor" "online"; mkDriver "B" "on_trip"]
                {[ "B" := mkLocation (-15.78)%float 35.01%float 0 ]})
    as (_ & _ & _ & _ & _ & _ & _ & H).
  apply (H "constructor" "B" (mkLocation (-15.78)%float 35.01%float 0));
    reflexivity.
Defined.

(** *** Letter case *)

Lemma nat_of_lowerChar (c : ascii) :
  nat_of_ascii (JS.lowerChar c)
  = if (65 <=? nat_of_ascii c)%nat && (nat_of_ascii c <=? 90)%nat
    then (nat_of_ascii c + 32)%nat else nat_of_ascii c.
Proof.
  unfold JS.lowerChar.
  destruct ((65 <=? nat_of_ascii c)%nat && (nat_of_ascii c <=? 90)%nat) eqn:E;
    [|done].
  apply andb_true_iff in E as [_ E%Nat.leb_le].
  apply nat_ascii_embedding. lia.
Qed.

Lemma nat_of_ascii_inj (a b : ascii) : nat_of_ascii a = nat_of_ascii b → a = b.
Proof.
  intros H. rewrite <- (ascii_nat_embedding a), <- (ascii_nat_embedding b).
  by rewrite H.
Qed.

Lemma lowerChar_eq_iff (a b : ascii) :
  JS.lowerChar a = JS.lowerChar b ↔ differInCaseOnly a b.
Proof.
  unfold differInCaseOnly. split.
  - intros H. apply (f_equal nat_of_ascii) in H.
    rewrite !nat_of_lowerChar in H.
    destruct (Nat.leb_spec 65 (nat_of_ascii a)), (Nat.leb_spec (nat_of_ascii a) 90),
      (Nat.leb_spec 65 (nat_of_ascii b)), (Nat.leb_spec (nat_of_ascii b) 90);
      simpl in H; lia.
  - intros H. apply nat_of_ascii_inj. rewrite !nat_of_lowerChar.
    destruct (Nat.leb_spec 65 (nat_of_ascii a)), (Nat.leb_spec (nat_of_ascii a) 90),
      (Nat.leb_spec 65 (nat_of_ascii b)), (Nat.leb_spec (nat_of_ascii b) 90);
      simpl; lia.
Qed.

Lemma toLowerCase_eq_iff (s t : string) :
  JS.toLowerCase s = JS.toLowerCase t ↔ sameIgnoringCase s t.
Proof.
  revert t. induction s as [|a s IH]; intros [|b t]; simpl; try done.
  rewrite <- lowerChar_eq_iff, <- IH. split.
  - by intros [= -> ->].
  - by intros [-> ->].
Qed.

Lemma isAvailable_iff d : isAvailable d ↔ sameIgnoringCase (status d) "online".
Proof. unfold isAvailable. by rewrite <- toLowerCase_eq_iff. Qed.

Lemma isEngaged_iff d :
  isEngaged d ↔ sameIgnoringCase (status d) "busy"
                ∨ sameIgnoringCase (status d) "on_trip".
Proof. unfold isEngaged. by rewrite <- !toLowerCase_eq_iff. Qed.

(** C10. Status matching is case-insensitive.  A driver is kept by the
    available filter exactly when its status is [online] up to letter
    case, and by the engaged filter exactly when it is [busy] or
    [on_trip] up to letter case; so, once it has a cached location, a
    driver whose status is spelt [Online] or [ONLINE] has its marker in
    the available list, and one spelt like [busy] or [on_trip] in any
    case has it in the engaged list. *)
Theorem status_match_ignores_case :
  (∀ d, isAvailable d ↔ sameIgnoringCase (status d) "online") ∧
  (∀ d, isEngaged d ↔ sameIgnoringCase (status d) "busy"
                      ∨ sameIgnoringCase (status d) "on_trip") ∧
  (∀ drivers (locs : Locations) d loc,
     d ∈ drivers → locs !! driver_id d = Some loc →
     (sameIgnoringCase (status d) "online" →
      markerOf d loc ∈ availableMarkers drivers locs) ∧
     (sameIgnoringCase (status d) "busy" ∨ sameIgnoringCase (status d) "on_trip" →
      markerOf d loc ∈ engagedMarkers drivers locs)) ∧
  (∀ i (locs : Locations) loc s,
     s ∈ ["online"; "Online"; "ONLINE"] → locs !! i = Some loc →
     availableMarkers [mkDriver i s] locs = [markerOf (mkDriver i s) loc]
     ∧ engagedMarkers [mkDriver i s] locs = []) ∧
  (∀ i (locs : Locations) loc s,
     s ∈ ["busy"; "Busy"; "BUSY"; "on_trip"; "On_Trip"; "ON_TRIP"] →
     locs !! i = Some loc →
     engagedMarkers [mkDriver i s] locs = [markerOf (mkDriver i s) loc]
     ∧ availableMarkers [mkDriver i s] locs = []).
Proof.
  split; [exact isAvailable_iff|]. split; [exact isEngaged_iff|].
  split; [|split].
  - intros drivers locs d loc Hd Hloc. split; intros Hs.
    + apply elem_of_availableMarkers. exists d.
      rewrite isAvailable_iff. repeat split; try done. left. by exists loc.
    + apply elem_of_engagedMarkers. exists d.
      rewrite isEngaged_iff. repeat split; try done. left. by exists loc.
  - intros i locs loc s Hs Hloc.
    unfold availableMarkers, engagedMarkers, filterBoolean, markerOf.
    rewrite !filter_cons, !filter_nil.
    repeat (apply elem_of_cons in Hs as [->|Hs]);
      [| | |by apply elem_of_nil in Hs];
      simpl; unfold toMarker, get; simpl; by rewrite Hloc.
  - intros i locs loc s Hs Hloc.
    unfold availableMarkers, engagedMarkers, filterBoolean, markerOf.
    rewrite !filter_cons, !filter_nil.
    repeat (apply elem_of_cons in Hs as [->|Hs]);
      [| | | | | |by apply elem_of_nil in Hs];
      simpl; unfold toMarker, get; simpl; by rewrite Hloc.
Qed.

Lemma status_match_ignores_case_witness :
  markerOf (mkDriver "D7" "ONLINE") (mkLocation (-15.78)%float 35.01%float 0)
  ∈ availableMarkers [mkDriver "D7" "ONLINE"]
      {[ "D7" := mkLocation (-15.78)%float 35.01%float 0 ]}.
Proof.
  pose proof status_match_ignores_case as (_ & _ & H & _).
  apply (H [mkDriver "D7" "ONLINE"] _ (mkDriver "D7" "ONLINE")).
  - apply list_elem_of_singleton. reflexivity.
  - reflexivity.
  - apply toLowerCase_eq_iff. reflexivity.
Defined.

End MarkerFacts.

(** ** Heat layer *)

Module HeatFacts.
Import LiveMap Spec.

Lemma forallZ_spec (p : Z → bool) (n : nat) (lo : Z) :
  forallZ p lo n = true → ∀ k : Z, (lo ≤ k < lo + Z.of_nat n)%Z → p k = true.
Proof.
  revert lo. induction n as [|n IH]; intros lo H k Hk; [lia|].
  simpl in H. apply andb_true_iff in H as [Hlo Hrest].
  destruct (decide (k = lo)) as [->|Hne]; [done|].
  apply (IH (lo + 1)%Z Hrest). lia.
Qed.

(** C6. In supply mode the point cloud is one point of weight 0.4 for
    each available marker followed by one point of weight 1 for each
    engaged marker, at the marker's position, and nothing else; so the
    weight of every engaged point is at least that of every available
    point. *)
Theorem supply_heat_weights :
  ∀ (drivers : list DriverSummary) (rides : option (list LiveRide))
    (locs : Locations),
    let available := availableMarkers drivers locs in
    let engaged := engagedMarkers drivers locs in
    let cloud := renderedHeatPoints drivers rides (mkComponent locs supply) in
    cloud = ((pointOf 0.4%float <$> available) ++ (pointOf 1%float <$> engaged))%list ∧
    length cloud = (length available + length engaged)%nat ∧
    (∀ p, p ∈ cloud ↔ (∃ m, m ∈ available ∧ p = pointOf 0.4%float m)
                      ∨ (∃ m, m ∈ engaged ∧ p = pointOf 1%float m)) ∧
    (∀ pa pe, pa ∈ (pointOf 0.4%float <$> available) →
              pe ∈ (pointOf 1%float <$> engaged) →
              float_le (weight pa) (weight pe)).
Proof.
  intros drivers rides locs available engaged cloud.
  assert (cloud = ((pointOf 0.4%float <$> available)
                   ++ (pointOf 1%float <$> engaged))%list) as Hcloud by reflexivity.
  split; [exact Hcloud|]. split; [|split].
  - rewrite Hcloud, length_app, !length_fmap. done.
  - intros p. rewrite Hcloud, elem_of_app, !list_elem_of_fmap.
    split; (intros [(m & H1 & H2)|(m & H1 & H2)]; [left|right]; by exists m).
  - intros pa pe Ha He.
    apply list_elem_of_fmap in Ha as (ma & -> & _).
    apply list_elem_of_fmap in He as (me & -> & _).
    reflexivity.
Qed.

(** *** The radius over the rationals *)

Lemma adjustedRadius_exact_antitone (z1 z2 : Q) :
  (z1 <= z2)%Q → (adjustedRadius_exact z2 <= adjustedRadius_exact z1)%Q.
Proof. unfold adjustedRadius_exact. intros H. lra. Qed.

Lemma heatRadius_exact_bounds (z : Q) :
  (10 <= heatRadius_exact z)%Q ∧ (heatRadius_exact z <= 50)%Q.
Proof.
  unfold heatRadius_exact. split.
  - apply Q.le_max_l.
  - apply Q.max_lub; [lra|apply Q.le_min_l].
Qed.

Lemma heatRadius_exact_antitone (z1 z2 : Q) :
  (z1 <= z2)%Q → (heatRadius_exact z2 <= heatRadius_exact z1)%Q.
Proof.
  intros H. unfold heatRadius_exact.
  apply Q.max_le_compat_l, Q.min_le_compat_l.
  by apply adjustedRadius_exact_antitone.
Qed.

(** *** The radius on doubles, at the integer zoom levels *)

Lemma clamped_levels :
  forallZ clampedAt (-1024) 2049 = true.
Proof. vm_compute. reflexivity. Qed.

Lemma dominating_levels :
  forallZ (dominatesUpTo 1024) (-1024) 2049 = true.
Proof. vm_compute. reflexivity. Qed.

(** C5. The heat radius [clamp(10, 50, 26 * (1 + (12 - z) * 0.2))] never
    grows when the zoom grows and always lies in [[10, 50]]: for every
    rational zoom when the formula is read over exact numbers, and, as
    the code computes it on doubles, for the integer zoom levels from
    -1024 to 1024. *)
Theorem heat_radius_monotone_clamped :
  (∀ z : Q, (10 <= heatRadius_exact z)%Q ∧ (heatRadius_exact z <= 50)%Q) ∧
  (∀ z1 z2 : Q, (z1 <= z2)%Q → (heatRadius_exact z2 <= heatRadius_exact z1)%Q) ∧
  (∀ k : Z, (-1024 ≤ k ≤ 1024)%Z →
     float_le 10%float (heatRadius (zoomLevel k))
     ∧ float_le (heatRadius (zoomLevel k)) 50%float) ∧
  (∀ k1 k2 : Z, (-1024 ≤ k1)%Z → (k1 ≤ k2)%Z → (k2 ≤ 1024)%Z →
     float_le (heatRadius (zoomLevel k2)) (heatRadius (zoomLevel k1))).
Proof.
  split; [exact heatRadius_exact_bounds|].
  split; [exact heatRadius_exact_antitone|].
  split.
  - intros k Hk.
    pose proof (forallZ_spec _ _ _ clamped_levels k) as H.
    unfold clampedAt in H. apply andb_true_iff. apply H. lia.
  - intros k1 k2 H1 H12 H2.
    pose proof (forallZ_spec _ _ _ dominating_levels k1) as H.
    unfold dominatesUpTo in H.
    apply (forallZ_spec _ _ _ (H ltac:(lia)) k2). lia.
Qed.

Lemma heat_radius_monotone_clamped_witness :
  float_le (heatRadius (zoomLevel 13)) (heatRadius (zoomLevel 12))
  ∧ float_le 10%float (heatRadius (zoomLevel 12))
  ∧ float_le (heatRadius (zoomLevel 12)) 50%float
  ∧ (heatRadius_exact 13 <= heatRadius_exact 12)%Q.
Proof.
  pose proof heat_radius_monotone_clamped as (_ & Hq & Hb & Hm).
  split; [apply (Hm 12%Z 13%Z); lia|].
  split; [apply (Hb 12%Z); lia|].
  split; [apply (Hb 12%Z); lia|].
  apply (Hq 12%Q 13%Q). unfold Qle. simpl. lia.
Defined.

End HeatFacts.

(** ** The provider's callbacks *)

Module HubFacts.
Import Hub App Spec.

(** *** What a callback leaves alone *)

Section Keeps.
Context {B : Type} (f : Hub.State → B).

Lemma keeps_ret {A : Type} (a : A) : keeps f (mret a).
Proof. by intros st. Qed.

Lemma keeps_bind {A C : Type} (m : M A) (k : A → M C) :
  keeps f m → (∀ a, keeps f (k a)) → keeps f (m ≫= k).
Proof.
  intros Hm Hk st. unfold mbind, M_bind.
  specialize (Hm st). destruct (m st) as [[a|] st']; simpl in *.
  - by rewrite Hk.
  - done.
Qed.

Lemma keeps_modify (g : Hub.State → Hub.State) :
  (∀ st, f (g st) = f st) → keeps f (modify g).
Proof. intros Hg st. apply Hg. Qed.

Lemma keeps_read {A : Type} (g : Hub.State → A) : keeps f (read g).
Proof. by intros st. Qed.

Lemma keeps_prop {A : Type} (field : DriverEvent → A) (driver : Payload) :
  keeps f (prop field driver).
Proof. by destruct driver; intros st. Qed.
End Keeps.

Lemma keeps_connectionState_showToast next : keeps connectionState (showToast next).
Proof.
  unfold showToast.
  apply keeps_bind; [apply keeps_read|]. intros ref.
  apply keeps_bind; [destruct ref; [by apply keeps_modify|apply keeps_ret]|].
  intros _. apply keeps_bind; [by apply keeps_modify|]. intros _.
  apply keeps_bind; [by intros st|]. intros h. by apply keeps_modify.
Qed.

Lemma keeps_connectionState_invalidate key :
  keeps connectionState (invalidateQueries key).
Proof. by apply keeps_modify. Qed.

Local Ltac keeps_step :=
  first
    [ apply keeps_connectionState_showToast
    | apply keeps_connectionState_invalidate
    | apply keeps_prop
    | apply keeps_ret
    | apply keeps_read
    | apply keeps_modify; done
    | apply keeps_bind; [|intros ?] ].

Lemma keeps_connectionState_provider (m : Message) :
  keeps connectionState (providerHandler m).
Proof.
  destruct m; simpl;
    unfold onDriverRegistered, onDriverApproved, onDriverRejected,
      onDriverStatusChanged, onDriverLocationUpdated;
    repeat keeps_step.
Qed.

Lemma keeps_connectionState_toastTimeout h :
  keeps connectionState (toastTimeout h).
Proof.
  unfold toastTimeout. apply keeps_bind; [apply keeps_read|]. intros pending.
  case_decide; repeat keeps_step.
Qed.

(** *** An approved driver *)

Lemma stale_onDriverApproved d st :
  stale (run (onDriverApproved (PObject d)) st) = approvalGroups (id d) ∪ stale st.
Proof.
  unfold run, onDriverApproved, showToast, approvalGroups.
  destruct st as [cs t [h|] pend next sl]; simpl; set_solver.
Qed.

(** C4. Processing a [DriverApproved] event for the driver with id [D]
    marks stale exactly the query groups [pendingDrivers], [drivers],
    [adminStats] and [driver:D] (these four and no other are added to
    what was stale before; from a state with nothing stale they are the
    whole stale set), and the map with its location cache is left as it
    was. *)
Theorem driver_approved_invalidates :
  ∀ (now : Z) (D : string) (name : option string) (st : App.State),
    let st' := step (Push now (DriverApproved (PObject (mkDriverEvent (Some D) name)))) st in
    stale (hub st')
    = ({[ [Some "pendingDrivers"]; [Some "drivers"]; [Some "adminStats"];
          [Some "driver"; Some D] ]} : gset QueryKey) ∪ stale (hub st) ∧
    (stale (hub st) = ∅ →
     stale (hub st')
     = {[ [Some "pendingDrivers"]; [Some "drivers"]; [Some "adminStats"];
          [Some "driver"; Some D] ]}) ∧
    liveMap st' = liveMap st ∧
    locationCache st' = locationCache st.
Proof.
  intros now D name st st'.
  assert (stale (hub st') = approvalGroups (Some D) ∪ stale (hub st)) as Hstale.
  { subst st'. simpl. apply stale_onDriverApproved. }
  assert (liveMap st' = liveMap st) as Hmap.
  { subst st'. simpl. by destruct (liveMap st). }
  split; [exact Hstale|]. split; [|split].
  - intros Hempty. rewrite Hstale, Hempty. unfold approvalGroups. set_solver.
  - exact Hmap.
  - unfold locationCache. by rewrite Hmap.
Qed.

Lemma driver_approved_invalidates_witness :
  stale (hub (step (Push 0 (DriverApproved (PObject (mkDriverEvent (Some "D1") None))))
                App.initial))
  = {[ [Some "pendingDrivers"]; [Some "drivers"]; [Some "adminStats"];
       [Some "driver"; Some "D1"] ]}.
Proof.
  apply (driver_approved_invalidates 0 "D1" None App.initial). reflexivity.
Defined.

(** *** A location update *)

(** C3. Processing a [DriverLocationUpdated] event with [driverId d] and
    coordinates [(lat, lng)] while the map is mounted leaves the map's
    location cache mapping [d] to exactly [(lat, lng)], and leaves the
    provider's state, hence the set of stale query groups, unchanged. *)
Theorem location_update_routed_to_cache :
  ∀ (now : Z) (data : LiveMap.LocationEvent) (st : App.State)
    (c : LiveMap.Component),
    liveMap st = Some c →
    let st' := step (Push now (DriverLocationUpdated data)) st in
    (∃ locs, locationCache st' = Some locs ∧
             LiveMap.get (LiveMap.driverId data) locs
             = LiveMap.OwnEntry
                 (LiveMap.mkLocation (LiveMap.latitude_ev data)
                    (LiveMap.longitude_ev data) now)) ∧
    stale (hub st') = stale (hub st) ∧
    hub st' = hub st.
Proof.
  intros now data st c Hc st'. subst st'. unfold locationCache. simpl.
  rewrite Hc. simpl. split; [|split].
  - eexists. split; [reflexivity|].
    unfold LiveMap.get, LiveMap.onLocation. by rewrite lookup_insert_eq.
  - reflexivity.
  - reflexivity.
Qed.

Lemma location_update_routed_to_cache_witness :
  ∃ locs,
    locationCache
      (step (Push 1700000000000
               (DriverLocationUpdated
                  (LiveMap.mkLocationEvent "D2" (-15.78)%float 35.01%float)))
         (mkApp Hub.initial (Some LiveMap.mount)))
    = Some locs
    ∧ LiveMap.get "D2" locs
      = LiveMap.OwnEntry
          (LiveMap.mkLocation (-15.78)%float 35.01%float 1700000000000).
Proof.
  apply (location_update_routed_to_cache 1700000000000
           (LiveMap.mkLocationEvent "D2" (-15.78)%float 35.01%float)
           (mkApp Hub.initial (Some LiveMap.mount)) LiveMap.mount).
  reflexivity.
Defined.

(** *** The connection-state indicator *)

Lemma connectionState_step_other (e : Event) (st : App.State) :
  (∀ s, e ≠ Lifecycle s) →
  connectionState (hub (step e st)) = connectionState (hub st).
Proof.
  intros Hother. destruct e as [now m|s|h| | | |mode]; simpl.
  - apply keeps_connectionState_provider.
  - by destruct (Hother s).
  - apply keeps_connectionState_toastTimeout.
  - reflexivity.
  - reflexivity.
  - reflexivity.
  - reflexivity.
Qed.

Lemma shown_states (es : list Event) :
  connectionState (hub (steps es App.initial))
  ∈ [Disconnected; Reconnecting; Connected].
Proof.
  induction es as [|e es IH] using rev_ind.
  - simpl. set_solver.
  - unfold steps in *. rewrite foldl_app. simpl.
    destruct e as [now m|s|h| | | |mode];
      try (rewrite connectionState_step_other by discriminate; exact IH).
    destruct s; simpl; set_solver.
Qed.

(** C7. For the signal sequence close, reconnecting, reconnected the
    indicator shows exactly disconnected, reconnecting, connected, one
    state per signal and in that order, whatever it showed before; and
    no event other than a lifecycle signal of the connection (its
    callbacks and the outcome of the start) changes the indicator. *)
Theorem indicator_follows_lifecycle :
  (∀ st : App.State,
     indicatorTrace [Lifecycle Close; Lifecycle OnReconnecting;
                     Lifecycle OnReconnected] st
     = [Disconnected; Reconnecting; Connected]) ∧
  (∀ (e : Event) (st : App.State),
     (∀ s, e ≠ Lifecycle s) →
     connectionState (hub (step e st)) = connectionState (hub st)) ∧
  (∀ (s : Signal) (st : App.State),
     connectionState (hub (step (Lifecycle s) st))
     = match s with
       | StartResolved | OnReconnected => Connected
       | StartRejected | Close => Disconnected
       | OnReconnecting => Reconnecting
       end) ∧
  (∀ es : list Event,
     connectionState (hub (steps es App.initial))
     ∈ [Disconnected; Reconnecting; Connected]).
Proof.
  split; [by intros st|].
  split; [exact connectionState_step_other|].
  split; [by intros [] st|].
  exact shown_states.
Qed.

Lemma indicator_follows_lifecycle_witness :
  connectionState
    (hub (step (Push 0 (DriverRegistered PUndefined))
            (step (Lifecycle OnReconnecting) App.initial)))
  = Reconnecting.
Proof.
  pose proof indicator_follows_lifecycle as (_ & Hframe & Hsig & _).
  rewrite (Hframe (Push 0 (DriverRegistered PUndefined))) by discriminate.
  apply (Hsig OnReconnecting).
Defined.

(** *** Partial payloads *)

Lemma showsToast_showToast (t : AdminToast) : showsToast t (showToast t).
Proof.
  intros st. unfold showToast.
  destruct st as [cs old [h|] pend nxt sl]; eexists; split; reflexivity.
Qed.

Lemma quiet_invalidate (key : QueryKey) : quiet (invalidateQueries key).
Proof. intros st. eexists. split; reflexivity. Qed.

Lemma quiet_seq (m k : M unit) : quiet m → quiet k → quiet (m ;; k).
Proof.
  intros Hm Hk st. destruct (Hm st) as (st1 & Hrun1 & Ht1).
  destruct (Hk st1) as (st2 & Hrun2 & Ht2). exists st2.
  unfold mbind, M_bind. rewrite Hrun1, Hrun2. split; [done|congruence].
Qed.

Lemma quiet_invalidate_driver (d : DriverEvent) :
  quiet (i ← prop id (PObject d); invalidateQueries [Some "driver"; i]).
Proof. intros st. eexists. split; reflexivity. Qed.

Lemma showsToast_seq (t : AdminToast) (m k : M unit) :
  showsToast t m → quiet k → showsToast t (m ;; k).
Proof.
  intros Hm Hk st. destruct (Hm st) as (st1 & Hrun1 & Ht1).
  destruct (Hk st1) as (st2 & Hrun2 & Ht2). exists st2.
  unfold mbind, M_bind. rewrite Hrun1, Hrun2. split; [done|congruence].
Qed.

Lemma showsToast_named {A : Type} (field : DriverEvent → A) (d : DriverEvent)
    (t : AdminToast) (k : A → M unit) :
  showsToast t (k (field d)) → showsToast t (a ← prop field (PObject d); k a).
Proof. intros H st. exact (H st). Qed.

Lemma displayName_spec (name : option string) :
  displayName name
  = match name with
    | Some s => if String.eqb s "" then "A driver" else s
    | None => "A driver"
    end.
Proof.
  unfold displayName, JS.or_else, JS.truthy.
  destruct name as [s|]; [|done]. by destruct (String.eqb s "").
Qed.

(** C8. For every object payload of [DriverRegistered], [DriverApproved]
    and [DriverRejected], whichever of its fields are missing, the
    handler returns without throwing, and the notification it shows
    names the driver by [fullName] when that is a non-empty string and by
    the generic label [A driver] when it is missing or empty. *)
Theorem partial_payload_generic_label :
  (∀ name : option string,
     displayName name
     = match name with
       | Some s => if String.eqb s "" then "A driver" else s
       | None => "A driver"
       end) ∧
  (∀ (d : DriverEvent) (st : Hub.State),
     ∃ st', onDriverRegistered (PObject d) st = (Normal tt, st') ∧
            toast st' = Some {| title := "New driver registration";
                                message := displayName (fullName d)
                                           ++ " is pending approval." |}) ∧
  (∀ (d : DriverEvent) (st : Hub.State),
     ∃ st', onDriverApproved (PObject d) st = (Normal tt, st') ∧
            toast st' = Some {| title := "Driver approved";
                                message := displayName (fullName d)
                                           ++ " was approved." |}) ∧
  (∀ (d : DriverEvent) (st : Hub.State),
     ∃ st', onDriverRejected (PObject d) st = (Normal tt, st') ∧
            toast st' = Some {| title := "Driver rejected";
                                message := displayName (fullName d)
                                           ++ " was rejected." |}) ∧
  (∀ (i : option string) (st : Hub.State),
     (∃ st', onDriverRegistered (PObject (mkDriverEvent i None)) st = (Normal tt, st')
             ∧ (message <$> toast st') = Some "A driver is pending approval.") ∧
     (∃ st', onDriverApproved (PObject (mkDriverEvent i (Some ""))) st = (Normal tt, st')
             ∧ (message <$> toast st') = Some "A driver was approved.") ∧
     (∃ st', onDriverRejected (PObject (mkDriverEvent i None)) st = (Normal tt, st')
             ∧ (message <$> toast st') = Some "A driver was rejected.")).
Proof.
  split; [exact displayName_spec|].
  assert (∀ (d : DriverEvent) (st : Hub.State),
     ∃ st', onDriverRegistered (PObject d) st = (Normal tt, st') ∧
            toast st' = Some {| title := "New driver registration";
                                message := displayName (fullName d)
                                           ++ " is pending approval." |}) as Hreg.
  { intros d. unfold onDriverRegistered. apply showsToast_named.
    apply showsToast_seq; [apply showsToast_showToast|].
    apply quiet_seq; apply quiet_invalidate. }
  assert (∀ (d : DriverEvent) (st : Hub.State),
     ∃ st', onDriverApproved (PObject d) st = (Normal tt, st') ∧
            toast st' = Some {| title := "Driver approved";
                                message := displayName (fullName d)
                                           ++ " was approved." |}) as Happ.
  { intros d. unfold onDriverApproved. apply showsToast_named.
    apply showsToast_seq; [apply showsToast_showToast|].
    do 3 (apply quiet_seq; [apply quiet_invalidate|]).
    apply quiet_invalidate_driver. }
  assert (∀ (d : DriverEvent) (st : Hub.State),
     ∃ st', onDriverRejected (PObject d) st = (Normal tt, st') ∧
            toast st' = Some {| title := "Driver rejected";
                                message := displayName (fullName d)
                                           ++ " was rejected." |}) as Hrej.
  { intros d. unfold onDriverRejected. apply showsToast_named.
    apply showsToast_seq; [apply showsToast_showToast|].
    do 3 (apply quiet_seq; [apply quiet_invalidate|]).
    apply quiet_invalidate_driver. }
  split; [exact Hreg|]. split; [exact Happ|]. split; [exact Hrej|].
  intros i st. split; [|split].
  - destruct (Hreg (mkDriverEvent i None) st) as (st' & Hrun & Ht).
    exists st'. split; [exact Hrun|]. by rewrite Ht.
  - destruct (Happ (mkDriverEvent i (Some "")) st) as (st' & Hrun & Ht).
    exists st'. split; [exact Hrun|]. by rewrite Ht.
  - destruct (Hrej (mkDriverEvent i None) st) as (st' & Hrun & Ht).
    exists st'. split; [exact Hrun|]. by rewrite Ht.
Qed.

(** The boundary of C8: with no payload at all the first property read
    throws, before anything is shown or invalidated. *)
Lemma missing_payload_throws (st : Hub.State) :
  onDriverRegistered PUndefined st = (TypeError, st)
  ∧ onDriverApproved PNull st = (TypeError, st)
  ∧ onDriverRejected PUndefined st = (TypeError, st).
Proof. done. Qed.

End HubFacts.

(** ** The hub endpoint *)

Module EndpointFacts.
Import Hub Spec.

Lemma length_append (s t : string) :
  String.length (s ++ t) = (String.length s + String.length t)%nat.
Proof. induction s as [|c s IH]; simpl; [done|by rewrite IH]. Qed.

Lemma substring_all (s : string) : substring 0 (String.length s) s = s.
Proof. induction s as [|c s IH]; simpl; [done|by rewrite IH]. Qed.

Lemma substring_prefix (s t : string) :
  substring 0 (String.length s) (s ++ t) = s.
Proof.
  induction s as [|c s IH]; simpl.
  - by destruct t.
  - by rewrite IH.
Qed.

Lemma substring_suffix (s t : string) :
  substring (String.length s) (String.length t) (s ++ t) = t.
Proof. induction s as [|c s IH]; simpl; [apply substring_all|exact IH]. Qed.

Lemma endsWith_append (s t : string) : JS.endsWith (s ++ t) t = true.
Proof.
  unfold JS.endsWith. rewrite length_append. apply andb_true_iff. split.
  - apply Nat.leb_le. lia.
  - replace (String.length s + String.length t - String.length t)%nat
      with (String.length s) by lia.
    rewrite substring_suffix. apply String.eqb_refl.
Qed.

Lemma dropLast_append (s t : string) :
  JS.dropLast (String.length t) (s ++ t) = s.
Proof.
  unfold JS.dropLast. rewrite length_append.
  replace (String.length s + String.length t - String.length t)%nat
    with (String.length s) by lia.
  apply substring_prefix.
Qed.

Lemma truthy_Some (v : option string) :
  JS.truthy v = true ↔ ∃ s, v = Some s ∧ s ≠ "".
Proof.
  unfold JS.truthy. destruct v as [s|].
  - rewrite negb_true_iff, String.eqb_neq. split.
    + intros H. by exists s.
    + by intros (s' & [= <-] & H).
  - split; [done|]. by intros (s' & ? & _).
Qed.

(** The branch that decides the endpoint. *)
Lemma resolveHubBaseUrl_branches (env : Env) :
  (∀ e, explicitOverride env = Some e → e ≠ "" →
        resolveHubBaseUrl env = stripTrailingSlash e) ∧
  (JS.truthy (explicitOverride env) = false →
   ∀ api, VITE_API_URL env = Some api → api ≠ "" → isHttpUrl api = true →
          resolveHubBaseUrl env = hubUrlFromApi api) ∧
  (JS.truthy (explicitOverride env) = false →
   JS.truthy (VITE_API_URL env) = false
   ∨ isHttpUrl (default "" (VITE_API_URL env)) = false →
   resolveHubBaseUrl env = fallbackHubUrl).
Proof.
  unfold resolveHubBaseUrl, explicitOverride, hubUrlFromApi.
  split; [|split].
  - intros e He Hne.
    assert (JS.truthy (JS.or_else (VITE_HUB_API_URL env) (VITE_HUB_URL env)) = true)
      as -> by (apply truthy_Some; by exists e).
    by rewrite He.
  - intros -> api Hapi Hne Hhttp.
    assert (JS.truthy (VITE_API_URL env) = true)
      as -> by (apply truthy_Some; by exists api).
    rewrite Hapi. simpl. by rewrite Hhttp.
  - intros -> [->| ->]; [done|]. by rewrite andb_false_r.
Qed.

(** C9 (amended). The endpoint is resolved in this order: an explicit hub
    override that is set and not empty ([VITE_HUB_API_URL], else
    [VITE_HUB_URL]) is used, less one trailing slash; otherwise a REST
    base URL that is set, not empty and begins with [http://] or
    [https://] in any letter case gives the hub URL derived from it (one
    trailing slash and then a trailing [/api] removed, [/hubs]
    appended); otherwise, also when the REST base URL is set but has no
    such scheme, the hard-coded fallback is used.  The three conditions
    exclude each other and one of them always holds. *)
Theorem hub_endpoint_precedence :
  ∀ env : Env,
    let explicit := JS.truthy (explicitOverride env) in
    let derivable := JS.truthy (VITE_API_URL env)
                     && isHttpUrl (default "" (VITE_API_URL env)) in
    (∀ e, explicitOverride env = Some e → e ≠ "" →
          resolveHubBaseUrl env = stripTrailingSlash e) ∧
    (explicit = false →
     ∀ api, VITE_API_URL env = Some api → api ≠ "" → isHttpUrl api = true →
            resolveHubBaseUrl env = hubUrlFromApi api) ∧
    (explicit = false → derivable = false →
     resolveHubBaseUrl env = fallbackHubUrl) ∧
    (explicit = true ∧ resolveHubBaseUrl env
                       = stripTrailingSlash (default "" (explicitOverride env))
     ∨ explicit = false ∧ derivable = true
       ∧ resolveHubBaseUrl env = hubUrlFromApi (default "" (VITE_API_URL env))
     ∨ explicit = false ∧ derivable = false
       ∧ resolveHubBaseUrl env = fallbackHubUrl).
Proof.
  intros env explicit derivable.
  destruct (resolveHubBaseUrl_branches env) as (H1 & H2 & H3).
  split; [exact H1|]. split; [exact H2|]. split.
  - intros He Hd. apply H3; [exact He|].
    subst derivable. by apply andb_false_iff in Hd.
  - subst explicit derivable.
    unfold resolveHubBaseUrl, explicitOverride, hubUrlFromApi in *.
    destruct (JS.truthy (JS.or_else (VITE_HUB_API_URL env) (VITE_HUB_URL env)));
      [by left|right].
    destruct (JS.truthy (VITE_API_URL env)
              && isHttpUrl (default "" (VITE_API_URL env))); [left|right]; done.
Qed.

Lemma hub_endpoint_precedence_witness :
  resolveHubBaseUrl (mkEnv None (Some "https://hub.example/") (Some "https://api.example/api"))
  = "https://hub.example"
  ∧ resolveHubBaseUrl (mkEnv None None (Some "https://api.example/api/"))
    = hubUrlFromApi "https://api.example/api/"
  ∧ resolveHubBaseUrl (mkEnv None None (Some "/api")) = fallbackHubUrl.
Proof.
  split; [|split].
  - pose proof (hub_endpoint_precedence
                  (mkEnv None (Some "https://hub.example/")
                     (Some "https://api.example/api"))) as (H & _).
    apply (H "https://hub.example/"); [reflexivity|discriminate].
  - pose proof (hub_endpoint_precedence
                  (mkEnv None None (Some "https://api.example/api/")))
      as (_ & H & _).
    apply H; [reflexivity|reflexivity|discriminate|reflexivity].
  - pose proof (hub_endpoint_precedence (mkEnv None None (Some "/api")))
      as (_ & _ & H & _).
    apply H; reflexivity.
Defined.

(** C9 as first written fails: with no override and the REST base URL
    set to the relative [/api], a value the REST client accepts, the
    endpoint is the fallback and not [/hubs], the URL derived from that
    base. *)
Lemma rest_base_without_scheme_falls_back :
  JS.truthy (explicitOverride (mkEnv None None (Some "/api"))) = false
  ∧ JS.truthy (VITE_API_URL (mkEnv None None (Some "/api"))) = true
  ∧ hubUrlFromApi "/api" = "/hubs"
  ∧ resolveHubBaseUrl (mkEnv None None (Some "/api"))
    = "https://ecoride-4560.onrender.com/hubs"
  ∧ resolveHubBaseUrl (mkEnv None None (Some "/api")) ≠ hubUrlFromApi "/api".
Proof. repeat split; try reflexivity. discriminate. Qed.

End EndpointFacts.

(** ** More on the location cache *)

Module CacheRunFacts.
Import LiveMap Spec.

Lemma lastArrivalFor_snoc entityId events e :
  lastArrivalFor entityId (events ++ [e])
  = if decide (driverId e.2 = entityId) then Some e
    else lastArrivalFor entityId events.
Proof.
  unfold lastArrivalFor. rewrite filter_app, filter_cons, filter_nil.
  case_decide.
  - by rewrite last_snoc.
  - by rewrite app_nil_r.
Qed.

Lemma lastArrivalFor_None entityId events :
  lastArrivalFor entityId events = None
  ↔ entityId ∉ ((fun e => driverId e.2) <$> events).
Proof.
  unfold lastArrivalFor. rewrite last_None. split.
  - intros Hnil (e & -> & He)%list_elem_of_fmap.
    assert (e ∈ filter (fun e0 : Z * LocationEvent => driverId e0.2 = driverId e.2) events)
      as Hin by (by apply list_elem_of_filter).
    rewrite Hnil in Hin. by apply elem_of_nil in Hin.
  - intros Hnot.
    destruct (filter (fun e => driverId e.2 = entityId) events) as [|e l] eqn:E; [done|].
    exfalso. apply Hnot.
    assert (e ∈ filter (fun e => driverId e.2 = entityId) events) as Hin
      by (rewrite E; apply list_elem_of_here).
    apply list_elem_of_filter in Hin as [<- Hin].
    apply list_elem_of_fmap. by exists e.
Qed.

Lemma lookup_recordAll_entry events (locs : Locations) entityId :
  recordAll events locs !! entityId
  = match lastArrivalFor entityId events with
    | Some e => Some (entryOf e)
    | None => locs !! entityId
    end.
Proof.
  induction events as [|[now data] events IH] using rev_ind; [done|].
  unfold recordAll in *. rewrite foldl_app. simpl.
  rewrite lastArrivalFor_snoc. simpl. unfold onLocation in *.
  case_decide as Hid.
  - subst entityId. by rewrite lookup_insert_eq.
  - by rewrite lookup_insert_ne.
Qed.

(** X1. On the cache of a freshly mounted map, after any run of location
    events the read of an id yields exactly the record of the last event
    for that id: its latitude, its longitude and the clock reading at
    which it was handled.  An id that no event carried reads as absent,
    unless it names a member a plain object inherits from
    [Object.prototype], which then is what the read yields.  The read
    yields an entry if and only if some event of the run carried the id,
    and the own keys of the cache are exactly those ids: nothing is ever
    evicted and nothing else is ever written. *)
Theorem cache_holds_last_arrival :
  ∀ (events : list (Z * LocationEvent)) (entityId : string),
    get entityId (recordAll events initialLocations)
    = match lastArrivalFor entityId events with
      | Some e => OwnEntry (entryOf e)
      | None =>
          if JS.inheritedMember entityId then InheritedMember else Absent
      end
    ∧ ((∃ loc, get entityId (recordAll events initialLocations) = OwnEntry loc)
       ↔ entityId ∈ ((fun e => driverId e.2) <$> events))
    ∧ dom (recordAll events initialLocations)
      = list_to_set ((fun e => driverId e.2) <$> events).
Proof.
  intros events entityId.
  assert (∀ i, recordAll events initialLocations !! i
               = entryOf <$> lastArrivalFor i events) as Hlookup.
  { intros i. rewrite lookup_recordAll_entry.
    destruct (lastArrivalFor i events); [done|].
    unfold initialLocations. apply lookup_empty. }
  assert (∀ i, is_Some (recordAll events initialLocations !! i)
               ↔ i ∈ ((fun e => driverId e.2) <$> events)) as Hsome.
  { intros i. rewrite Hlookup. split.
    - intros [loc Hloc]. destruct (decide (i ∈ (fun e => driverId e.2) <$> events))
        as [Hin|Hnot]; [done|].
      apply lastArrivalFor_None in Hnot. by rewrite Hnot in Hloc.
    - intros Hin. destruct (lastArrivalFor i events) as [e|] eqn:E; [by eexists|].
      apply lastArrivalFor_None in E. done. }
  split; [|split].
  - unfold get. rewrite Hlookup. by destruct (lastArrivalFor entityId events).
  - rewrite <- Hsome. unfold get.
    destruct (recordAll events initialLocations !! entityId) as [loc|].
    + split; [by eexists|]. intros _. by exists loc.
    + split; [|by intros []].
      intros [loc Hloc]. by destruct (JS.inheritedMember entityId).
  - apply set_eq. intros i. rewrite elem_of_dom, elem_of_list_to_set.
    apply Hsome.
Qed.

(** X2. The cache a run of events leaves depends only on the last event
    of each driver: two runs that agree on it leave the same cache.  So
    events of different drivers may be handled in either order, and an
    older event of a driver is forgotten once a newer one is handled. *)
Theorem cache_determined_by_last_arrivals :
  (∀ (events1 events2 : list (Z * LocationEvent)) (locs : Locations),
     (∀ i, lastArrivalFor i events1 = lastArrivalFor i events2) →
     recordAll events1 locs = recordAll events2 locs) ∧
  (∀ now1 now2 data1 data2 (locs : Locations),
     driverId data1 ≠ driverId data2 →
     onLocation now2 data2 (onLocation now1 data1 locs)
     = onLocation now1 data1 (onLocation now2 data2 locs)) ∧
  (∀ now1 now2 data1 data2 (locs : Locations),
     driverId data1 = driverId data2 →
     onLocation now2 data2 (onLocation now1 data1 locs)
     = onLocation now2 data2 locs).
Proof.
  split; [|split].
  - intros events1 events2 locs Hlast. apply map_eq. intros i.
    rewrite !lookup_recordAll_entry. by rewrite Hlast.
  - intros now1 now2 data1 data2 locs Hne. unfold onLocation.
    by apply insert_insert_ne.
  - intros now1 now2 data1 data2 locs Heq. unfold onLocation.
    rewrite Heq. apply insert_insert_eq.
Qed.

Lemma cache_determined_by_last_arrivals_witness :
  recordAll [(1, mkLocationEvent "D1" 1 2); (2, mkLocationEvent "D2" 3 4);
             (3, mkLocationEvent "D1" 5 6)]%Z initialLocations
  = recordAll [(3, mkLocationEvent "D1" 5 6); (2, mkLocationEvent "D2" 3 4)]%Z
      initialLocations.
Proof.
  pose proof cache_determined_by_last_arrivals as (H & _).
  apply H. intros i. unfold lastArrivalFor.
  rewrite !filter_cons, !filter_nil. simpl.
  destruct (decide ("D1" = i)), (decide ("D2" = i));
    try reflexivity; congruence.
Defined.

End CacheRunFacts.

(** ** More on the marker projection *)

Module ProjectionFacts.
Import LiveMap Spec.

(** The two projections read the cache only at the ids of the snapshot. *)
Lemma projection_ext (P : DriverSummary → Prop) `{!∀ d, Decision (P d)}
    (drivers : list DriverSummary) (locs1 locs2 : Locations) :
  (∀ d, d ∈ drivers → locs1 !! driver_id d = locs2 !! driver_id d) →
  filterBoolean (map (toMarker locs1) (filter P drivers))
  = filterBoolean (map (toMarker locs2) (filter P drivers)).
Proof.
  intros Hagree. induction drivers as [|d drivers IH]; [done|].
  rewrite filter_cons.
  assert (∀ d', d' ∈ drivers → locs1 !! driver_id d' = locs2 !! driver_id d')
    as Htail by (intros d' Hd'; apply Hagree; by apply list_elem_of_further).
  destruct (decide (P d)); [|by apply IH].
  assert (toMarker locs1 d = toMarker locs2 d) as Hd.
  { unfold toMarker, get. by rewrite (Hagree d) by apply list_elem_of_here. }
  unfold filterBoolean in *. simpl. rewrite Hd.
  destruct (toMarker locs2 d); simpl; [f_equal|]; by apply IH.
Qed.

Lemma length_projection (P : DriverSummary → Prop) `{!∀ d, Decision (P d)}
    (drivers : list DriverSummary) (locs : Locations) :
  (length (filterBoolean (map (toMarker locs) (filter P drivers)))
   ≤ length (filter P drivers))%nat.
Proof.
  unfold filterBoolean.
  induction (filter P drivers) as [|d l IH]; [done|].
  change (omap (fun x => x) (map (toMarker locs) (d :: l)))
    with (match toMarker locs d with
          | Some m => m :: omap (fun x => x) (map (toMarker locs) l)
          | None => omap (fun x => x) (map (toMarker locs) l)
          end).
  destruct (toMarker locs d); simpl length; lia.
Qed.

Lemma length_filter_exclusive {A : Type} (P Q : A → Prop)
    `{!∀ x, Decision (P x)} `{!∀ x, Decision (Q x)} (l : list A) :
  (∀ x, P x → Q x → False) →
  (length (filter P l) + length (filter Q l) ≤ length l)%nat.
Proof.
  intros Hex. induction l as [|x l IH]; [done|].
  rewrite !filter_cons.
  destruct (decide (P x)) as [HP|HP], (decide (Q x)) as [HQ|HQ]; simpl; try lia.
  destruct (Hex x HP HQ).
Qed.

(** X3. A map that has just been mounted holds no location: mounting
    always starts from an empty cache, so nothing of an earlier mount
    survives.  From the empty cache a driver of the snapshot is drawn
    only when its id names a member that a plain object inherits from
    [Object.prototype], and then without coordinates.  When no driver of
    the snapshot has such an id, both marker lists are empty, the supply
    cloud is empty and [HeatLayer] adds no layer. *)
Theorem fresh_map_shows_nothing :
  ∀ (st : App.State) (drivers : list DriverSummary)
    (rides : option (list LiveRide)) (zoom : float),
    App.liveMap (App.step App.MountMap st) = Some mount
    ∧ App.locationCache (App.step App.MountMap (App.step App.UnmountMap st))
      = Some ∅
    ∧ (∀ m, m ∈ availableMarkers drivers (locationsByDriverId mount)
            ↔ ∃ d, d ∈ drivers ∧ isAvailable d
                   ∧ JS.inheritedMember (driver_id d) = true
                   ∧ m = unlocatedMarker d)
    ∧ (∀ m, m ∈ engagedMarkers drivers (locationsByDriverId mount)
            ↔ ∃ d, d ∈ drivers ∧ isEngaged d
                   ∧ JS.inheritedMember (driver_id d) = true
                   ∧ m = unlocatedMarker d)
    ∧ (Forall (fun d => JS.inheritedMember (driver_id d) = false) drivers →
       availableMarkers drivers (locationsByDriverId mount) = []
       ∧ engagedMarkers drivers (locationsByDriverId mount) = []
       ∧ renderedHeatPoints drivers rides mount = []
       ∧ addHeatLayer (renderedHeatPoints drivers rides mount) zoom = None).
Proof.
  intros st drivers rides zoom.
  assert (∀ d m, shows ∅ d m
                 ↔ JS.inheritedMember (driver_id d) = true ∧ m = unlocatedMarker d)
    as Hshows.
  { intros d m. unfold shows. rewrite lookup_empty. split.
    - intros [(loc & ? & _)|(_ & ? & ?)]; done.
    - intros [? ?]. by right. }
  split; [done|]. split; [done|]. split; [|split].
  - intros m. rewrite MarkerFacts.elem_of_availableMarkers.
    split; intros (d & Hd & HP & H); exists d; (split; [done|]); (split; [done|]);
      by apply Hshows.
  - intros m. rewrite MarkerFacts.elem_of_engagedMarkers.
    split; intros (d & Hd & HP & H); exists d; (split; [done|]); (split; [done|]);
      by apply Hshows.
  - intros Hplain.
    assert (∀ (P : DriverSummary → Prop) `{!∀ d, Decision (P d)},
              filterBoolean (map (toMarker ∅) (filter P drivers)) = [])
      as Hempty.
    { intros P HP.
      assert (Forall (fun d => JS.inheritedMember (driver_id d) = false)
                (filter P drivers)) as Hl.
      { apply Forall_forall. intros d Hd.
        apply list_elem_of_filter in Hd as [_ Hd].
        by apply (proj1 (Forall_forall _ _) Hplain). }
      induction Hl as [|d l Hd _ IH]; [done|].
      unfold filterBoolean in *. simpl. unfold toMarker at 1. unfold get.
      by rewrite lookup_empty, Hd. }
    assert (availableMarkers drivers (locationsByDriverId mount) = []) as Ha
      by apply Hempty.
    assert (engagedMarkers drivers (locationsByDriverId mount) = []) as He
      by apply Hempty.
    assert (renderedHeatPoints drivers rides mount = []) as Hcloud.
    { unfold renderedHeatPoints. rewrite Ha, He. reflexivity. }
    repeat split; try done. by rewrite Hcloud.
Qed.

Lemma fresh_map_shows_nothing_witness :
  availableMarkers [mkDriver "A" "online"; mkDriver "B" "on_trip"]
    (locationsByDriverId mount) = []
  ∧ engagedMarkers [mkDriver "A" "online"; mkDriver "B" "on_trip"]
      (locationsByDriverId mount) = []
  ∧ renderedHeatPoints [mkDriver "A" "online"; mkDriver "B" "on_trip"] None mount
    = []
  ∧ addHeatLayer
      (renderedHeatPoints [mkDriver "A" "online"; mkDriver "B" "on_trip"] None
         mount) 12%float = None.
Proof.
  pose proof (fresh_map_shows_nothing App.initial
                [mkDriver "A" "online"; mkDriver "B" "on_trip"] None 12%float)
    as (_ & _ & _ & _ & H).
  apply H.
  apply List.Forall_cons; [reflexivity|].
  apply List.Forall_cons; [reflexivity|]. apply List.Forall_nil.
Defined.

(** X4. The map never shows more markers than the snapshot has drivers,
    counting both lists together, and the supply cloud has one point per
    marker; every marker belongs to a driver of the snapshot, and it sits
    at the latitude and longitude cached for that driver's id, or, when
    nothing is cached for the id and the id names a member inherited
    from [Object.prototype], it has no coordinates. *)
Theorem markers_bounded_by_snapshot :
  ∀ (drivers : list DriverSummary) (rides : option (list LiveRide))
    (locs : Locations),
    (length (availableMarkers drivers locs)
     + length (engagedMarkers drivers locs) ≤ length drivers)%nat
    ∧ length (renderedHeatPoints drivers rides (mkComponent locs supply))
      = (length (availableMarkers drivers locs)
         + length (engagedMarkers drivers locs))%nat
    ∧ (∀ m, m ∈ availableMarkers drivers locs ∨ m ∈ engagedMarkers drivers locs →
            marker_id m ∈ (driver_id <$> drivers)
            ∧ ((∃ loc, locs !! marker_id m = Some loc
                       ∧ position m = (Num (latitude loc), Num (longitude loc)))
               ∨ (locs !! marker_id m = None
                  ∧ JS.inheritedMember (marker_id m) = true
                  ∧ position m = (Undefined, Undefined)))).
Proof.
  intros drivers rides locs. split; [|split].
  - unfold availableMarkers, engagedMarkers.
    pose proof (length_projection
                  (fun d => JS.toLowerCase (status d) = "online") drivers locs).
    pose proof (length_projection
                  (fun d => JS.toLowerCase (status d) = "busy"
                            ∨ JS.toLowerCase (status d) = "on_trip") drivers locs).
    pose proof (length_filter_exclusive
                  (fun d => JS.toLowerCase (status d) = "online")
                  (fun d => JS.toLowerCase (status d) = "busy"
                            ∨ JS.toLowerCase (status d) = "on_trip") drivers
                  MarkerFacts.available_not_engaged).
    lia.
  - unfold renderedHeatPoints, heatPoints. simpl.
    by rewrite length_app, !length_map.
  - assert (∀ d m, d ∈ drivers → shows locs d m →
              marker_id m ∈ (driver_id <$> drivers)
              ∧ ((∃ loc, locs !! marker_id m = Some loc
                         ∧ position m = (Num (latitude loc), Num (longitude loc)))
                 ∨ (locs !! marker_id m = None
                    ∧ JS.inheritedMember (marker_id m) = true
                    ∧ position m = (Undefined, Undefined)))) as Hshown.
    { intros d m Hd [(loc & Hloc & ->)|(Hnone & Hinh & ->)]; simpl.
      - split; [by apply list_elem_of_fmap_2|]. left. by exists loc.
      - split; [by apply list_elem_of_fmap_2|]. by right. }
    intros m [Hm|Hm].
    + apply MarkerFacts.elem_of_availableMarkers in Hm as (d & Hd & _ & Hs).
      by apply (Hshown d).
    + apply MarkerFacts.elem_of_engagedMarkers in Hm as (d & Hd & _ & Hs).
      by apply (Hshown d).
Qed.

Lemma markers_bounded_by_snapshot_witness :
  (∃ loc, ({[ "B" := mkLocation (-15.78)%float 35.01%float 0 ]} : Locations) !! "B"
          = Some loc
          ∧ (Num (-15.78)%float, Num 35.01%float)
            = (Num (latitude loc), Num (longitude loc)))
  ∨ (({[ "B" := mkLocation (-15.78)%float 35.01%float 0 ]} : Locations) !! "B"
     = None
     ∧ JS.inheritedMember "B" = true
     ∧ (Num (-15.78)%float, Num 35.01%float) = (Undefined, Undefined)).
Proof.
  pose proof (markers_bounded_by_snapshot
                [mkDriver "A" "online"; mkDriver "B" "on_trip"] None
                {[ "B" := mkLocation (-15.78)%float 35.01%float 0 ]})
    as (_ & _ & H).
  apply (H (mkMarker "B" (Num (-15.78)%float, Num 35.01%float))).
  right. apply list_elem_of_singleton. reflexivity.
Defined.

(** *** React keys *)

Lemma prefix_inj (p a b : string) : p ++ a = p ++ b → a = b.
Proof. induction p as [|c p IH]; simpl; [done|]. intros [= H]. by apply IH. Qed.

Lemma NoDup_filter_ids (P : DriverSummary → Prop) `{!∀ d, Decision (P d)}
    (drivers : list DriverSummary) :
  NoDup (driver_id <$> drivers) → NoDup (driver_id <$> filter P drivers).
Proof.
  induction drivers as [|d drivers IH]; [done|].
  rewrite fmap_cons, NoDup_cons. intros [Hnotin Hnd].
  rewrite filter_cons. destruct (decide (P d)); [|by apply IH].
  rewrite fmap_cons, NoDup_cons. split; [|by apply IH].
  intros (d' & Hid & Hd')%list_elem_of_fmap.
  apply list_elem_of_filter in Hd' as [_ Hd'].
  apply Hnotin. rewrite Hid. by apply list_elem_of_fmap_2.
Qed.

Lemma NoDup_prefixed (p : string) (ids : list string) :
  NoDup ids → NoDup ((fun i => p ++ i) <$> ids).
Proof.
  intros Hnd. apply NoDup_fmap_2_strong; [|done].
  intros a b _ _. apply prefix_inj.
Qed.

(** X5. When the ids of the snapshot are pairwise distinct, the React
    keys of all markers of one render ([avail_<id>] and [eng_<id>]) are
    pairwise distinct; and a key of the available list never equals a
    key of the engaged list, whatever the ids are. *)
Theorem marker_keys_distinct :
  ∀ (drivers : list DriverSummary) (locs : Locations),
    (NoDup (driver_id <$> drivers) → NoDup (markerKeys drivers locs))
    ∧ (∀ ma me, availableKey ma ≠ engagedKey me).
Proof.
  intros drivers locs.
  assert (∀ ma me, availableKey ma ≠ engagedKey me) as Hcross
    by (intros ma me; unfold availableKey, engagedKey; simpl; discriminate).
  split; [|exact Hcross].
  intros Hnd. unfold markerKeys. apply NoDup_app. split; [|split].
  - change availableKey with ((fun i => "avail_" ++ i) ∘ marker_id).
    rewrite list_fmap_compose. apply NoDup_prefixed.
    unfold availableMarkers.
    rewrite (MarkerFacts.projection_ids
               (fun d => JS.toLowerCase (status d) = "online")).
    by apply NoDup_filter_ids.
  - intros k (ma & -> & _)%list_elem_of_fmap (me & Hk & _)%list_elem_of_fmap.
    by apply (Hcross ma me).
  - change engagedKey with ((fun i => "eng_" ++ i) ∘ marker_id).
    rewrite list_fmap_compose. apply NoDup_prefixed.
    unfold engagedMarkers.
    rewrite (MarkerFacts.projection_ids
               (fun d => JS.toLowerCase (status d) = "busy"
                         ∨ JS.toLowerCase (status d) = "on_trip")).
    by apply NoDup_filter_ids.
Qed.

Lemma marker_keys_distinct_witness :
  NoDup (markerKeys [mkDriver "A" "online"; mkDriver "B" "on_trip"]
           {[ "A" := mkLocation 1 2 0; "B" := mkLocation 3 4 0 ]}).
Proof.
  apply marker_keys_distinct. simpl. apply NoDup_cons.
  split; [|apply NoDup_singleton].
  intros H%list_elem_of_singleton. discriminate H.
Defined.

(** *** A location update and the markers *)

Lemma toMarker_onLocation_other (locs : Locations) now data d :
  driver_id d ≠ driverId data →
  toMarker (onLocation now data locs) d = toMarker locs d.
Proof.
  intros Hne. unfold toMarker, get, onLocation. by rewrite lookup_insert_ne.
Qed.

Lemma toMarker_onLocation_same (locs : Locations) now data d :
  driver_id d = driverId data →
  toMarker (onLocation now data locs) d
  = Some (mkMarker (driverId data)
            (Num (latitude_ev data), Num (longitude_ev data))).
Proof.
  intros Heq. unfold toMarker, get, onLocation.
  rewrite Heq, lookup_insert_eq. done.
Qed.

Lemma projection_onLocation (P : DriverSummary → Prop) `{!∀ d, Decision (P d)}
    (drivers : list DriverSummary) (locs : Locations) now data m :
  m ∈ filterBoolean (map (toMarker (onLocation now data locs)) (filter P drivers))
  ↔ (marker_id m ≠ driverId data
     ∧ m ∈ filterBoolean (map (toMarker locs) (filter P drivers)))
    ∨ (m = mkMarker (driverId data)
             (Num (latitude_ev data), Num (longitude_ev data))
       ∧ ∃ d, d ∈ drivers ∧ P d ∧ driver_id d = driverId data).
Proof.
  rewrite !MarkerFacts.elem_of_filterBoolean.
  change (map ?f ?l) with (f <$> l). rewrite !list_elem_of_fmap.
  setoid_rewrite list_elem_of_filter. split.
  - intros (d & Hm & HP & Hd).
    destruct (decide (driver_id d = driverId data)) as [Heq|Hne].
    + right. rewrite toMarker_onLocation_same in Hm by done.
      injection Hm as ->. split; [done|]. by exists d.
    + left. rewrite toMarker_onLocation_other in Hm by done. split.
      * symmetry in Hm. by rewrite (MarkerFacts.toMarker_id _ _ _ Hm).
      * by exists d.
  - intros [[Hne (d & Hm & HP & Hd)]|[-> (d & Hd & HP & Heq)]].
    + exists d. split; [|done].
      rewrite toMarker_onLocation_other; [done|].
      symmetry in Hm. by rewrite <- (MarkerFacts.toMarker_id _ _ _ Hm).
    + exists d. split; [|done]. by rewrite toMarker_onLocation_same.
Qed.

(** X6. A location update moves the marker of its driver and no other:
    after the update the markers of every other id are those shown
    before, the driver of the event (when the snapshot has it with a
    qualifying status) has its marker at the coordinates of the event and
    nowhere else, and an event for a driver the snapshot does not list
    changes neither list. *)
Theorem location_update_moves_one_marker :
  ∀ (drivers : list DriverSummary) (locs : Locations) (now : Z)
    (data : LocationEvent),
    let locs' := onLocation now data locs in
    let moved := mkMarker (driverId data)
                   (Num (latitude_ev data), Num (longitude_ev data)) in
    (∀ m, m ∈ availableMarkers drivers locs'
          ↔ (marker_id m ≠ driverId data ∧ m ∈ availableMarkers drivers locs)
            ∨ (m = moved ∧ ∃ d, d ∈ drivers ∧ isAvailable d
                                ∧ driver_id d = driverId data)) ∧
    (∀ m, m ∈ engagedMarkers drivers locs'
          ↔ (marker_id m ≠ driverId data ∧ m ∈ engagedMarkers drivers locs)
            ∨ (m = moved ∧ ∃ d, d ∈ drivers ∧ isEngaged d
                                ∧ driver_id d = driverId data)) ∧
    (driverId data ∉ (driver_id <$> drivers) →
     availableMarkers drivers locs' = availableMarkers drivers locs
     ∧ engagedMarkers drivers locs' = engagedMarkers drivers locs).
Proof.
  intros drivers locs now data locs' moved. split; [|split].
  - intros m. apply (projection_onLocation
                       (fun d => JS.toLowerCase (status d) = "online")).
  - intros m. apply (projection_onLocation
                       (fun d => JS.toLowerCase (status d) = "busy"
                                 ∨ JS.toLowerCase (status d) = "on_trip")).
  - intros Hnot.
    assert (∀ d, d ∈ drivers → locs' !! driver_id d = locs !! driver_id d) as Hagree.
    { intros d Hd. subst locs'. unfold onLocation. apply lookup_insert_ne.
      intros Heq. apply Hnot. rewrite Heq. by apply list_elem_of_fmap_2. }
    split; by apply projection_ext.
Qed.

Lemma location_update_moves_one_marker_witness :
  availableMarkers [mkDriver "A" "online"]
    (onLocation 5 (mkLocationEvent "Z" 1 2) {[ "A" := mkLocation 3 4 0 ]})
  = availableMarkers [mkDriver "A" "online"] {[ "A" := mkLocation 3 4 0 ]}.
Proof.
  pose proof (location_update_moves_one_marker [mkDriver "A" "online"]
                {[ "A" := mkLocation 3 4 0 ]} 5 (mkLocationEvent "Z" 1 2))
    as (_ & _ & H).
  apply H. simpl. intros Hin%list_elem_of_singleton. discriminate Hin.
Defined.

End ProjectionFacts.

(** ** Order on doubles *)

Module FloatOrder.
Import Spec.

Lemma SFcompare_antisym (x y : spec_float) (c : comparison) :
  SFcompare x y = Some c → SFcompare y x = Some (CompOpp c).
Proof.
  destruct x as [sx|sx| |sx mx ex], y as [sy|sy| |sy my ey]; simpl;
    try discriminate; intros [= <-];
    try (by destruct sx); try (by destruct sy); try (by destruct sx, sy).
  destruct sx, sy; simpl; try done.
  - rewrite (Z.compare_antisym ex ey).
    destruct (ex ?= ey)%Z; simpl; try done.
    pose proof (Pos.compare_cont_antisym mx my Eq) as H. simpl in H.
    by rewrite <- H, CompOpp_involutive.
  - rewrite (Z.compare_antisym ex ey).
    destruct (ex ?= ey)%Z; simpl; try done.
    pose proof (Pos.compare_cont_antisym mx my Eq) as H. simpl in H.
    by rewrite <- H.
Qed.

Lemma SFcompare_defined (x y : spec_float) :
  SFcompare x x = Some Eq → SFcompare y y = Some Eq →
  ∃ c, SFcompare x y = Some c.
Proof. destruct x, y; simpl; try discriminate; eauto. Qed.

Lemma isNumber_compare (a : float) :
  isNumber a → SFcompare (Prim2SF a) (Prim2SF a) = Some Eq.
Proof.
  unfold isNumber, is_nan. rewrite FloatAxioms.eqb_spec. unfold SFeqb.
  by destruct (SFcompare (Prim2SF a) (Prim2SF a)) as [[]|].
Qed.

Lemma float_le_refl (a : float) : isNumber a → float_le a a.
Proof.
  intros Ha. unfold float_le. rewrite leb_spec. unfold SFleb.
  by rewrite (isNumber_compare a Ha).
Qed.

Lemma ltb_float_le (a b : float) : (a <? b)%float = true → float_le a b.
Proof.
  unfold float_le. rewrite ltb_spec, leb_spec. unfold SFltb, SFleb.
  by destruct (SFcompare (Prim2SF a) (Prim2SF b)) as [[]|].
Qed.

Lemma not_ltb_float_le (a b : float) :
  isNumber a → isNumber b → (a <? b)%float = false → float_le b a.
Proof.
  intros Ha Hb. unfold float_le. rewrite ltb_spec, leb_spec.
  unfold SFltb, SFleb.
  destruct (SFcompare_defined _ _ (isNumber_compare a Ha) (isNumber_compare b Hb))
    as [c Hc].
  rewrite Hc, (SFcompare_antisym _ _ _ Hc). by destruct c.
Qed.

(** [Math.min] and [Math.max] of two numbers: one of the arguments, on
    the right side of both. *)
Lemma Math_min_number (a b : float) :
  isNumber a → isNumber b →
  (JS.Math_min a b = a ∨ JS.Math_min a b = b)
  ∧ float_le (JS.Math_min a b) a ∧ float_le (JS.Math_min a b) b.
Proof.
  intros Ha Hb. unfold JS.Math_min.
  unfold isNumber in Ha, Hb. rewrite Ha, Hb. simpl.
  destruct (a <? b)%float eqn:Hab.
  - split; [by left|]. split; [by apply float_le_refl|by apply ltb_float_le].
  - destruct (b <? a)%float eqn:Hba.
    + split; [by right|]. split; [by apply ltb_float_le|by apply float_le_refl].
    + destruct (JS.is_neg_zero a).
      * split; [by left|]. split; [by apply float_le_refl|].
        by apply not_ltb_float_le.
      * split; [by right|]. split; [|by apply float_le_refl].
        by apply not_ltb_float_le.
Qed.

Lemma Math_max_number (a b : float) :
  isNumber a → isNumber b →
  (JS.Math_max a b = a ∨ JS.Math_max a b = b)
  ∧ float_le a (JS.Math_max a b) ∧ float_le b (JS.Math_max a b).
Proof.
  intros Ha Hb. unfold JS.Math_max.
  unfold isNumber in Ha, Hb. rewrite Ha, Hb. simpl.
  destruct (a <? b)%float eqn:Hab.
  - split; [by right|]. split; [by apply ltb_float_le|by apply float_le_refl].
  - destruct (b <? a)%float eqn:Hba.
    + split; [by left|]. split; [by apply float_le_refl|by apply ltb_float_le].
    + destruct (JS.is_neg_zero a).
      * split; [by right|]. split; [|by apply float_le_refl].
        by apply not_ltb_float_le.
      * split; [by left|]. split; [by apply float_le_refl|].
        by apply not_ltb_float_le.
Qed.

Lemma Math_min_nan (a b : float) :
  is_nan a = true ∨ is_nan b = true → is_nan (JS.Math_min a b) = true.
Proof.
  intros H. unfold JS.Math_min.
  assert (is_nan a || is_nan b = true) as -> by (by apply orb_true_iff).
  reflexivity.
Qed.

Lemma Math_max_nan (a b : float) :
  is_nan a = true ∨ is_nan b = true → is_nan (JS.Math_max a b) = true.
Proof.
  intros H. unfold JS.Math_max.
  assert (is_nan a || is_nan b = true) as -> by (by apply orb_true_iff).
  reflexivity.
Qed.

End FloatOrder.

(** ** More on the heat layer *)

Module HeatLayerFacts.
Import LiveMap Spec FloatOrder.

Lemma heatRadius_number (z : float) :
  isNumber (adjustedRadius z) →
  isNumber (heatRadius z)
  ∧ float_le 10%float (heatRadius z) ∧ float_le (heatRadius z) 50%float.
Proof.
  intros Hx. unfold heatRadius.
  assert (isNumber 50%float) as H50 by reflexivity.
  assert (isNumber 10%float) as H10 by reflexivity.
  destruct (Math_min_number 50%float (adjustedRadius z) H50 Hx)
    as (Hmin & Hmin50 & _).
  assert (isNumber (JS.Math_min 50%float (adjustedRadius z))) as Hm
    by (destruct Hmin as [-> | ->]; done).
  destruct (Math_max_number 10%float _ H10 Hm) as (Hmax & Hmax10 & _).
  split; [by destruct Hmax as [-> | ->]|]. split; [exact Hmax10|].
  destruct Hmax as [-> | ->]; [reflexivity|exact Hmin50].
Qed.

Lemma heatRadius_nan (z : float) :
  is_nan (adjustedRadius z) = true → is_nan (heatRadius z) = true.
Proof.
  intros Hx. unfold heatRadius. apply Math_max_nan. right.
  apply Math_min_nan. by right.
Qed.

(** X7. On every double, not only at the integer zoom levels: when the
    linear formula yields a number, the heat radius is a number between
    10 and 50; when it yields Not-a-Number (a Not-a-Number zoom), so
    does the clamp, because [Math.min] and [Math.max] pass it on. *)
Theorem heat_radius_clamped_on_doubles :
  ∀ z : float,
    (isNumber (adjustedRadius z) →
     isNumber (heatRadius z)
     ∧ float_le 10%float (heatRadius z) ∧ float_le (heatRadius z) 50%float)
    ∧ (is_nan (adjustedRadius z) = true → is_nan (heatRadius z) = true)
    ∧ (is_nan z = true → is_nan (heatRadius z) = true).
Proof.
  intros z. split; [apply heatRadius_number|].
  split; [apply heatRadius_nan|].
  intros Hz. apply heatRadius_nan.
  assert (Prim2SF z = S754_nan) as Hsf.
  { unfold is_nan in Hz. rewrite FloatAxioms.eqb_spec in Hz. unfold SFeqb in Hz.
    destruct (Prim2SF z); simpl in Hz; try discriminate; try done.
    - by destruct s.
    - destruct s; simpl in Hz; rewrite Z.compare_refl in Hz;
        rewrite Pos.compare_cont_refl in Hz; discriminate. }
  assert (z = nan) as ->.
  { apply Prim2SF_inj. rewrite Hsf. reflexivity. }
  reflexivity.
Qed.

Lemma heat_radius_clamped_on_doubles_witness :
  isNumber (heatRadius 12.5%float)
  ∧ float_le 10%float (heatRadius 12.5%float)
  ∧ float_le (heatRadius 12.5%float) 50%float.
Proof. apply heat_radius_clamped_on_doubles. reflexivity. Defined.

Lemma zoomAll_snoc zooms z heat :
  zoomAll (zooms ++ [z]) heat = onZoom z (zoomAll zooms heat).
Proof. unfold zoomAll. by rewrite foldl_app. Qed.

(** X8. [HeatLayer] adds a layer exactly when the cloud is not empty;
    the layer keeps the cloud it was given, and after any run of zoom
    changes its radius is the one the formula gives for the latest zoom
    (the zoom at mount when there was no change), so it is a number
    between 10 and 50 whenever that formula yields a number. *)
Theorem heat_layer_follows_zoom :
  ∀ (points : list HeatPoint) (zoom : float) (zooms : list float),
    (addHeatLayer points zoom = None ↔ points = [])
    ∧ ∀ heat, addHeatLayer points zoom = Some heat →
        let latest := default zoom (last zooms) in
        layerPoints (zoomAll zooms heat) = points
        ∧ radius (zoomAll zooms heat) = heatRadius latest
        ∧ (isNumber (adjustedRadius latest) →
           float_le 10%float (radius (zoomAll zooms heat))
           ∧ float_le (radius (zoomAll zooms heat)) 50%float).
Proof.
  intros points zoom zooms. split.
  - unfold addHeatLayer. by destruct points.
  - intros heat Hadd latest.
    assert (layerPoints (zoomAll zooms heat) = points
            ∧ radius (zoomAll zooms heat) = heatRadius latest) as [Hp Hr].
    { subst latest. induction zooms as [|z zooms IH] using rev_ind.
      - unfold addHeatLayer in Hadd. destruct points; [done|].
        injection Hadd as <-. done.
      - rewrite zoomAll_snoc, last_snoc. simpl. split; [apply IH|done]. }
    split; [exact Hp|]. split; [exact Hr|].
    intros Hnum. rewrite Hr. by apply heatRadius_number.
Qed.

Lemma heat_layer_follows_zoom_witness :
  radius (zoomAll [13%float; 14%float]
            (mkHeatLayer [(Num 1%float, Num 2%float, 1%float)] 26%float))
  = heatRadius 14%float.
Proof.
  pose proof (heat_layer_follows_zoom [(Num 1%float, Num 2%float, 1%float)] 12%float
                [13%float; 14%float]) as (_ & H).
  apply (H (mkHeatLayer [(Num 1%float, Num 2%float, 1%float)] 26%float)).
  reflexivity.
Defined.

(** X9. In demand mode the cloud is one point of weight 1 at the origin
    of every live ride whose origin latitude and longitude are both
    finite, in the order of the rides; rides with a Not-a-Number or
    infinite origin are dropped, no rides answered yet gives an empty
    cloud, and neither the drivers nor the location cache matter. *)
Theorem demand_heat_points :
  ∀ (drivers : list DriverSummary) (rides : option (list LiveRide))
    (locs : Locations),
    let cloud := renderedHeatPoints drivers rides (mkComponent locs demand) in
    (∀ p, p ∈ cloud ↔ ∃ r, r ∈ default [] rides
                          ∧ JS.Number_isFinite (originLatitude r) = true
                          ∧ JS.Number_isFinite (originLongitude r) = true
                          ∧ p = (Num (originLatitude r), Num (originLongitude r),
                                 1%float))
    ∧ (∀ p, p ∈ cloud → weight p = 1%float
                        ∧ ∃ lat lng, p.1 = (Num lat, Num lng)
                                     ∧ JS.Number_isFinite lat = true
                                     ∧ JS.Number_isFinite lng = true)
    ∧ (length cloud ≤ length (default [] rides))%nat
    ∧ (rides = None → cloud = [])
    ∧ cloud = heatPoints demand rides [] [].
Proof.
  intros drivers rides locs cloud.
  assert (∀ p, p ∈ cloud ↔ ∃ r, r ∈ default [] rides
                          ∧ JS.Number_isFinite (originLatitude r) = true
                          ∧ JS.Number_isFinite (originLongitude r) = true
                          ∧ p = (Num (originLatitude r), Num (originLongitude r),
                                 1%float))
    as Hmem.
  { intros p. subst cloud. unfold renderedHeatPoints, heatPoints. simpl.
    rewrite list_elem_of_In, in_map_iff. split.
    - intros (r & <- & Hr). apply filter_In in Hr as [Hr Hfin].
      apply andb_true_iff in Hfin as [Hlat Hlng].
      exists r. by rewrite list_elem_of_In.
    - intros (r & Hr & Hlat & Hlng & ->). exists r. split; [done|].
      apply filter_In. split; [by apply list_elem_of_In|].
      by rewrite Hlat, Hlng. }
  split; [exact Hmem|]. split; [|split; [|split]].
  - intros p (r & _ & Hlat & Hlng & ->)%Hmem. split; [done|].
    by exists (originLatitude r), (originLongitude r).
  - subst cloud. unfold renderedHeatPoints, heatPoints. simpl.
    rewrite length_map. apply filter_length_le.
  - by intros ->.
  - reflexivity.
Qed.

End HeatLayerFacts.

(** ** More on the provider's callbacks *)

Module HubRunFacts.
Import Hub App Spec.

(** *** The routing table *)

Lemma stale_showToast_then (t : AdminToast) (k : M unit) (st : Hub.State) :
  ∃ st1, stale st1 = stale st ∧ (showToast t ;; k) st = k st1.
Proof.
  unfold showToast.
  destruct st as [cs old [h|] pend nxt sl]; eexists;
    (split; [|reflexivity]); reflexivity.
Qed.

Lemma stale_provider (m : Message) (st : Hub.State) :
  stale (run (providerHandler m) st) = routedGroups m ∪ stale st.
Proof.
  unfold run.
  destruct m as [[| |d]|[| |d]|[| |d]|[| |d]|data]; simpl;
    try (rewrite (left_id_L ∅ (∪)); reflexivity).
  - destruct (stale_showToast_then
                {| title := "New driver registration";
                   message := displayName (fullName d) ++ " is pending approval." |}
                (invalidateQueries [Some "pendingDrivers"] ;;
                 invalidateQueries [Some "adminStats"]) st) as (st1 & Hs & Hrun).
    assert (onDriverRegistered (PObject d) st
            = (invalidateQueries [Some "pendingDrivers"] ;;
               invalidateQueries [Some "adminStats"]) st1) as ->
      by (rewrite <- Hrun; reflexivity).
    simpl. rewrite Hs. set_solver.
  - apply HubFacts.stale_onDriverApproved.
  - destruct (stale_showToast_then
                {| title := "Driver rejected";
                   message := displayName (fullName d) ++ " was rejected." |}
                (invalidateQueries [Some "pendingDrivers"] ;;
                 invalidateQueries [Some "drivers"] ;;
                 invalidateQueries [Some "adminStats"] ;;
                 i ← prop id (PObject d);
                 invalidateQueries [Some "driver"; i]) st) as (st1 & Hs & Hrun).
    assert (onDriverRejected (PObject d) st
            = (invalidateQueries [Some "pendingDrivers"] ;;
               invalidateQueries [Some "drivers"] ;;
               invalidateQueries [Some "adminStats"] ;;
               i ← prop id (PObject d);
               invalidateQueries [Some "driver"; i]) st1) as ->
      by (rewrite <- Hrun; reflexivity).
    simpl. rewrite Hs. set_solver.
  - set_solver.
  - set_solver.
  - set_solver.
Qed.

(** X10. The routing table of the bridge, for every message: handling it
    adds to the stale query groups exactly the groups of its row
    ([DriverRegistered]: pendingDrivers, adminStats; [DriverApproved] and
    [DriverRejected]: pendingDrivers, drivers, adminStats, driver:id;
    [DriverStatusChanged]: drivers, adminStats, driver:id;
    [DriverLocationUpdated]: none) and removes none; only a location
    update touches the map, and a status change or a location update
    leaves the toast as it was. *)
Theorem routing_table :
  ∀ (now : Z) (m : Message) (st : App.State),
    let st' := step (Push now m) st in
    stale (hub st') = routedGroups m ∪ stale (hub st)
    ∧ ((∀ data, m ≠ DriverLocationUpdated data) → liveMap st' = liveMap st)
    ∧ ((∃ data, m = DriverStatusChanged data)
       ∨ (∃ data, m = DriverLocationUpdated data) →
       toast (hub st') = toast (hub st)).
Proof.
  intros now m st st'. subst st'. split; [|split].
  - simpl. apply stale_provider.
  - intros Hm. destruct m as [p|p|p|p|data]; simpl;
      try (by destruct (liveMap st)). by destruct (Hm data).
  - intros [[p ->]|[data ->]]; simpl; [|done].
    by destruct p.
Qed.

Lemma routing_table_witness :
  toast (hub (step (Push 0 (DriverStatusChanged (PObject (mkDriverEvent (Some "D1") None))))
                App.initial))
  = None.
Proof.
  pose proof (routing_table 0
                (DriverStatusChanged (PObject (mkDriverEvent (Some "D1") None)))
                App.initial) as (_ & _ & H).
  apply H. left. by eexists.
Defined.

(** *** Payloads that are not objects *)

Lemma registered_showsToast (d : DriverEvent) :
  showsToast {| title := "New driver registration";
                message := displayName (fullName d) ++ " is pending approval." |}
    (onDriverRegistered (PObject d)).
Proof.
  unfold onDriverRegistered. apply HubFacts.showsToast_named.
  apply HubFacts.showsToast_seq; [apply HubFacts.showsToast_showToast|].
  apply HubFacts.quiet_seq; apply HubFacts.quiet_invalidate.
Qed.

Lemma approved_showsToast (d : DriverEvent) :
  showsToast {| title := "Driver approved";
                message := displayName (fullName d) ++ " was approved." |}
    (onDriverApproved (PObject d)).
Proof.
  unfold onDriverApproved. apply HubFacts.showsToast_named.
  apply HubFacts.showsToast_seq; [apply HubFacts.showsToast_showToast|].
  do 3 (apply HubFacts.quiet_seq; [apply HubFacts.quiet_invalidate|]).
  apply HubFacts.quiet_invalidate_driver.
Qed.

Lemma rejected_showsToast (d : DriverEvent) :
  showsToast {| title := "Driver rejected";
                message := displayName (fullName d) ++ " was rejected." |}
    (onDriverRejected (PObject d)).
Proof.
  unfold onDriverRejected. apply HubFacts.showsToast_named.
  apply HubFacts.showsToast_seq; [apply HubFacts.showsToast_showToast|].
  do 3 (apply HubFacts.quiet_seq; [apply HubFacts.quiet_invalidate|]).
  apply HubFacts.quiet_invalidate_driver.
Qed.

Lemma providerHandler_returns (m : Message) (st : Hub.State) :
  carriesObject m = true → (providerHandler m st).1 = Normal tt.
Proof.
  destruct m as [[| |d]|[| |d]|[| |d]|[| |d]|data]; simpl; try discriminate;
    intros _.
  - destruct (registered_showsToast d st) as (st' & Hrun & _). by rewrite Hrun.
  - destruct (approved_showsToast d st) as (st' & Hrun & _). by rewrite Hrun.
  - destruct (rejected_showsToast d st) as (st' & Hrun & _). by rewrite Hrun.
  - reflexivity.
  - reflexivity.
Qed.

(** X11. A handler throws exactly when its message carries no object
    payload.  When one of the three toast handlers throws, it has changed
    nothing: no toast, no timeout, no invalidation.  When the status
    handler throws, it has already invalidated [drivers] and
    [adminStats], and only the driver's own group is missed. *)
Theorem missing_payload_effects :
  (∀ (m : Message) (st : Hub.State),
     (providerHandler m st).1 = Normal tt ↔ carriesObject m = true) ∧
  (∀ (m : Message) (st : Hub.State),
     carriesObject m = false →
     (∀ data, m ≠ DriverStatusChanged data) →
     providerHandler m st = (TypeError, st)) ∧
  (∀ (data : Payload) (st : Hub.State),
     carriesObject (DriverStatusChanged data) = false →
     (onDriverStatusChanged data st).1 = TypeError
     ∧ stale (onDriverStatusChanged data st).2
       = {[ [Some "drivers"]; [Some "adminStats"] ]} ∪ stale st
     ∧ timerView (onDriverStatusChanged data st).2 = timerView st
     ∧ connectionState (onDriverStatusChanged data st).2 = connectionState st).
Proof.
  split; [|split].
  - intros m st. split; [|apply providerHandler_returns].
    destruct m as [[| |d]|[| |d]|[| |d]|[| |d]|data]; simpl; done.
  - intros m st Hno Hstatus.
    destruct m as [[| |d]|[| |d]|[| |d]|[| |d]|data]; simpl in *;
      try discriminate; try reflexivity.
    + by destruct (Hstatus PUndefined).
    + by destruct (Hstatus PNull).
  - intros data st Hno. destruct data as [| |d]; [| |discriminate];
      (split; [reflexivity|]); (split; [simpl; set_solver|]); done.
Qed.

Lemma missing_payload_effects_witness :
  providerHandler (DriverApproved PNull) Hub.initial = (TypeError, Hub.initial).
Proof.
  pose proof missing_payload_effects as (_ & H & _).
  apply H; [reflexivity|discriminate].
Defined.

(** *** The toast and its timeout *)

Lemma preserves_bind {A B : Type} (I : Hub.State → Prop) (m : M A) (k : A → M B) :
  preserves I m → (∀ a, preserves I (k a)) → preserves I (m ≫= k).
Proof.
  intros Hm Hk st HI. unfold mbind, M_bind.
  specialize (Hm st HI). destruct (m st) as [[a|] st']; simpl in *.
  - by apply Hk.
  - done.
Qed.

Lemma preserves_keeps {A : Type} (m : M A) :
  keeps timerView m → preserves timersConsistent m.
Proof.
  intros Hkeep st HI. specialize (Hkeep st).
  unfold timerView in Hkeep. injection Hkeep as Ht Hr Hp Hn.
  unfold timersConsistent in *. by rewrite Ht, Hr, Hp, Hn.
Qed.

Lemma preserves_showToast (t : AdminToast) : preserves timersConsistent (showToast t).
Proof.
  intros st (Hpend & Htoast & Hnext). unfold showToast, timersConsistent.
  destruct st as [cs old [h|] pend nxt sl]; simpl in *; subst pend.
  - split; [set_solver|]. split; [by eexists|]. intros h' [= <-]. lia.
  - split; [set_solver|]. split; [by eexists|]. intros h' [= <-]. lia.
Qed.

Lemma preserves_toastTimeout (h : nat) : preserves timersConsistent (toastTimeout h).
Proof.
  intros st (Hpend & Htoast & Hnext). unfold toastTimeout, timersConsistent.
  destruct st as [cs old ref pend nxt sl]. simpl in *. subst pend.
  unfold mbind, M_bind, read. simpl. case_decide as Hin; simpl.
  - destruct ref as [h'|]; [|set_solver].
    apply elem_of_singleton in Hin as ->.
    split; [set_solver|]. split; [by intros []|done].
  - done.
Qed.

Lemma preserves_provider (m : Message) : preserves timersConsistent (providerHandler m).
Proof.
  assert (∀ key, preserves timersConsistent (invalidateQueries key)) as Hinv
    by (intros key; by apply preserves_keeps).
  assert (∀ {A} (f : DriverEvent → A) p, preserves timersConsistent (prop f p))
    as Hprop by (intros A f p; apply preserves_keeps, HubFacts.keeps_prop).
  destruct m as [p|p|p|p|data]; simpl;
    unfold onDriverRegistered, onDriverApproved, onDriverRejected,
      onDriverStatusChanged, onDriverLocationUpdated;
    repeat first [ apply preserves_showToast | apply Hinv | apply Hprop
                 | apply preserves_bind; [|intros ?] ].
  by intros st.
Qed.

Lemma timersConsistent_step (e : Event) (st : App.State) :
  timersConsistent (hub st) → timersConsistent (hub (step e st)).
Proof.
  intros HI. destruct e as [now m|s|h| | | |mode]; simpl; try done.
  - by apply preserves_provider.
  - by destruct s.
  - by apply preserves_toastTimeout.
  - destruct HI as (Hpend & _ & Hnext). split; [done|]. split; [|done].
    by intros [].
Qed.

Lemma timersConsistent_steps (es : list Event) :
  timersConsistent (hub (steps es App.initial)).
Proof.
  induction es as [|e es IH] using rev_ind.
  - split; [done|]. split; [by intros []|done].
  - unfold steps in *. rewrite foldl_app. simpl. by apply timersConsistent_step.
Qed.

(** X12. In every state the dashboard can reach, at most one toast
    timeout is pending and it is the one the provider's ref holds: showing
    a toast cancels the timeout of the one before.  So a visible toast
    always has its own pending timeout, which clears it when it fires,
    and a timeout that was cancelled or has fired changes nothing: an
    older timeout never takes a newer toast away. *)
Theorem one_pending_toast_timeout :
  ∀ es : list Event,
    let st := steps es App.initial in
    timersConsistent (hub st)
    ∧ (size (pendingTimeouts (hub st)) ≤ 1)%nat
    ∧ (is_Some (toast (hub st)) →
       ∃ h, toastTimeoutRef (hub st) = Some h
            ∧ pendingTimeouts (hub st) = {[ h ]}
            ∧ toast (hub (step (ToastTimeout h) st)) = None
            ∧ pendingTimeouts (hub (step (ToastTimeout h) st)) = ∅)
    ∧ (∀ h, toastTimeoutRef (hub st) ≠ Some h →
            hub (step (ToastTimeout h) st) = hub st).
Proof.
  intros es st.
  pose proof (timersConsistent_steps es) as HI. fold st in HI.
  split; [exact HI|].
  destruct HI as (Hpend & Htoast & Hnext).
  split; [|split].
  - rewrite Hpend. destruct (toastTimeoutRef (hub st)).
    + rewrite size_singleton. lia.
    + rewrite size_empty. lia.
  - intros Hvisible. destruct (Htoast Hvisible) as [h Href].
    rewrite Href in Hpend. exists h. split; [done|]. split; [done|].
    simpl. unfold run, toastTimeout, mbind, M_bind, read. simpl.
    rewrite decide_True by (rewrite Hpend; by apply elem_of_singleton).
    simpl. split; [done|]. rewrite Hpend. set_solver.
  - intros h Hne. simpl. unfold run, toastTimeout, mbind, M_bind, read. simpl.
    rewrite decide_False; [done|].
    rewrite Hpend. destruct (toastTimeoutRef (hub st)) as [h'|]; [|set_solver].
    intros ->%elem_of_singleton. done.
Qed.

Lemma one_pending_toast_timeout_witness :
  ∃ h, toastTimeoutRef (hub (steps
           [Push 0 (DriverRegistered (PObject (mkDriverEvent None None)));
            Push 1 (DriverApproved (PObject (mkDriverEvent (Some "D1") None)))]
           App.initial)) = Some h
       ∧ pendingTimeouts (hub (steps
           [Push 0 (DriverRegistered (PObject (mkDriverEvent None None)));
            Push 1 (DriverApproved (PObject (mkDriverEvent (Some "D1") None)))]
           App.initial)) = {[ h ]}.
Proof.
  pose proof (one_pending_toast_timeout
                [Push 0 (DriverRegistered (PObject (mkDriverEvent None None)));
                 Push 1 (DriverApproved (PObject (mkDriverEvent (Some "D1") None)))])
    as (_ & _ & H & _).
  destruct H as (h & Href & Hpend & _); [by eexists|].
  exists h. by split.
Defined.

(** *** The indicator over a whole run *)

Lemma signalsOf_snoc (es : list Event) (e : Event) :
  signalsOf (es ++ [e])
  = (signalsOf es ++ match e with Lifecycle s => [s] | _ => [] end)%list.
Proof. unfold signalsOf. rewrite omap_app. by destruct e. Qed.

(** X13. After any run of events the indicator shows the state named by
    the last lifecycle signal of the run: connected after a successful
    start or a reconnect, reconnecting after the reconnecting signal,
    disconnected after a close or a failed start and before any signal.
    So the label [Receiving live updates] is shown exactly when the last
    signal was a successful start or a reconnect, and never the
    transport's [Connecting] or [Disconnecting] states. *)
Theorem indicator_shows_last_signal :
  ∀ es : list Event,
    connectionState (hub (steps es App.initial)) = stateAfter (signalsOf es)
    ∧ (isConnected (hub (steps es App.initial)) = true
       ↔ last (signalsOf es) = Some StartResolved
         ∨ last (signalsOf es) = Some OnReconnected)
    ∧ connectionState (hub (steps es App.initial)) ≠ Connecting
    ∧ connectionState (hub (steps es App.initial)) ≠ Disconnecting.
Proof.
  intros es.
  assert (connectionState (hub (steps es App.initial)) = stateAfter (signalsOf es))
    as Hstate.
  { induction es as [|e es IH] using rev_ind; [done|].
    unfold steps in *. rewrite foldl_app, signalsOf_snoc. simpl.
    destruct e as [now m|s|h| | | |mode];
      try (rewrite HubFacts.connectionState_step_other by discriminate;
           by rewrite app_nil_r).
    unfold stateAfter. rewrite last_snoc. by destruct s. }
  split; [exact Hstate|].
  unfold isConnected. rewrite Hstate. unfold stateAfter.
  destruct (last (signalsOf es)) as [[]|]; repeat split; try done;
    try (intros [?|?]; done); try (intros _; by left); try (intros _; by right).
Qed.

(** *** What each kind of event leaves alone *)



(** X20. Unmounting the provider leaves no timeout behind: after any run
    of events, once the cleanup of the provider's effect has run, no toast
    timeout is pending, so none can fire into the unmounted provider; the
    cleanup changes nothing else. *)
Theorem unmount_leaves_no_timeout :
  ∀ es : list Event,
    let st := hub (steps es App.initial) in
    pendingTimeouts (run cleanup st) = ∅
    ∧ (∀ h, run (toastTimeout h) (run cleanup st) = run cleanup st)
    ∧ toast (run cleanup st) = toast st
    ∧ stale (run cleanup st) = stale st
    ∧ connectionState (run cleanup st) = connectionState st.
Proof.
  intros es st.
  destruct (timersConsistent_steps es) as (Hpend & _ & _). fold st in Hpend.
  assert (pendingTimeouts (run cleanup st) = ∅) as Hnone.
  { unfold run, cleanup, mbind, M_bind, read. simpl.
    destruct (toastTimeoutRef st) as [h|]; simpl; rewrite Hpend; set_solver. }
  split; [exact Hnone|]. split; [|split; [|split]].
  - intros h. unfold run at 1. unfold toastTimeout, mbind, M_bind, read. simpl.
    rewrite decide_False; [done|]. rewrite Hnone. set_solver.
  - unfold run, cleanup, mbind, M_bind, read. simpl.
    by destruct (toastTimeoutRef st).
  - unfold run, cleanup, mbind, M_bind, read. simpl.
    by destruct (toastTimeoutRef st).
  - unfold run, cleanup, mbind, M_bind, read. simpl.
    by destruct (toastTimeoutRef st).
Qed.

End HubRunFacts.

(** ** More on the endpoints *)

Module UrlFacts.
Import Hub Spec EndpointFacts.

Lemma toLowerCase_append (s t : string) :
  JS.toLowerCase (s ++ t) = JS.toLowerCase s ++ JS.toLowerCase t.
Proof. induction s as [|c s IH]; simpl; [done|by rewrite IH]. Qed.

Lemma substring_split (s : string) (k : nat) :
  (k ≤ String.length s)%nat →
  s = substring 0 k s ++ substring k (String.length s - k) s.
Proof.
  revert k. induction s as [|c s IH]; intros [|k] Hk; simpl in *; try lia.
  - done.
  - by rewrite substring_all.
  - change (String c s
            = String c (substring 0 k s ++ substring k (String.length s - k) s)).
    f_equal. apply IH. lia.
Qed.

Lemma endsWith_split (s t : string) :
  JS.endsWith s t = true → s = JS.dropLast (String.length t) s ++ t.
Proof.
  unfold JS.endsWith, JS.dropLast.
  intros [Hlen Heq%String.eqb_eq]%andb_true_iff. apply Nat.leb_le in Hlen.
  rewrite (substring_split s (String.length s - String.length t)) at 1 by lia.
  replace (String.length s - (String.length s - String.length t))%nat
    with (String.length t) by lia.
  by rewrite Heq.
Qed.

Lemma endsWith_iff (s t : string) :
  JS.endsWith s t = true ↔ ∃ s', s = s' ++ t.
Proof.
  split.
  - intros H. eexists. by apply endsWith_split.
  - intros [s' ->]. apply endsWith_append.
Qed.

(** X15. [stripTrailingSlash] removes one trailing slash and nothing
    else: a URL that ends in a slash loses exactly that character, so a
    URL ending in two slashes still ends in one; any other URL, the empty
    one included, comes back unchanged.  The copy in [api.ts] and the
    copy in [SignalRContext.tsx] agree on every URL. *)
Theorem strip_trailing_slash_once :
  ∀ url : string,
    (∀ s, url = s ++ "/" → stripTrailingSlash url = s)
    ∧ ((∀ s, url ≠ s ++ "/") → stripTrailingSlash url = url)
    ∧ (stripTrailingSlash url = url ∨ url = stripTrailingSlash url ++ "/")
    ∧ stripTrailingSlash (url ++ "//") = url ++ "/"
    ∧ Api.stripTrailingSlash url = stripTrailingSlash url.
Proof.
  intros url.
  assert (∀ s, stripTrailingSlash (s ++ "/") = s) as Hstrip.
  { intros s. unfold stripTrailingSlash. rewrite endsWith_append.
    apply (dropLast_append s "/"). }
  split; [by intros s ->|]. split; [|split; [|split]].
  - intros Hno. unfold stripTrailingSlash.
    destruct (JS.endsWith url "/") eqn:E; [|done].
    apply endsWith_iff in E as [s ->]. by destruct (Hno s).
  - unfold stripTrailingSlash. destruct (JS.endsWith url "/") eqn:E; [|by left].
    right. by apply (endsWith_split url "/").
  - assert (url ++ "//" = (url ++ "/") ++ "/") as ->; [|apply Hstrip].
    clear. induction url as [|c url IH]; [done|].
    change (String c (url ++ "//") = String c ((url ++ "/") ++ "/")).
    by rewrite IH.
  - reflexivity.
Qed.

Lemma strip_trailing_slash_once_witness :
  stripTrailingSlash "https://ecoride.example/api/" = "https://ecoride.example/api"
  ∧ stripTrailingSlash "https://ecoride.example" = "https://ecoride.example".
Proof.
  split.
  - pose proof (strip_trailing_slash_once "https://ecoride.example/api/") as (H & _).
    by apply H.
  - pose proof (strip_trailing_slash_once "https://ecoride.example") as (_ & H & _).
    apply H. intros s Hs.
    apply (f_equal (fun u => JS.endsWith u "/")) in Hs.
    rewrite endsWith_append in Hs. discriminate Hs.
Defined.

Lemma length_toLowerCase (s : string) :
  String.length (JS.toLowerCase s) = String.length s.
Proof. induction s as [|c s IH]; simpl; [done|by rewrite IH]. Qed.

Lemma substring_append_skip (s u : string) (k m : nat) :
  substring (String.length s + k) m (s ++ u) = substring k m u.
Proof. induction s as [|c s IH]; simpl; [done|exact IH]. Qed.

Lemma endsWith_append_r (s u t : string) :
  (String.length t ≤ String.length u)%nat →
  JS.endsWith (s ++ u) t = JS.endsWith u t.
Proof.
  intros Hlen. unfold JS.endsWith. rewrite length_append.
  replace (String.length s + String.length u - String.length t)%nat
    with (String.length s + (String.length u - String.length t))%nat by lia.
  rewrite substring_append_skip.
  assert ((String.length t <=? String.length s + String.length u)%nat = true)
    as -> by (apply Nat.leb_le; lia).
  assert ((String.length t <=? String.length u)%nat = true)
    as -> by (by apply Nat.leb_le).
  done.
Qed.

Lemma removeApiSuffix_append (o sfx : string) :
  JS.toLowerCase sfx = "/api" → removeApiSuffix (o ++ sfx) = o.
Proof.
  intros Hsfx. unfold removeApiSuffix.
  rewrite toLowerCase_append, Hsfx, endsWith_append.
  assert (String.length sfx = 4%nat) as Hlen
    by (by rewrite <- length_toLowerCase, Hsfx).
  rewrite <- Hlen. apply dropLast_append.
Qed.

Lemma api_suffix_no_slash (o sfx : string) :
  JS.toLowerCase sfx = "/api" → JS.endsWith (o ++ sfx) "/" = false.
Proof.
  intros Hsfx.
  assert (String.length sfx = 4%nat) as Hlen
    by (by rewrite <- length_toLowerCase, Hsfx).
  rewrite endsWith_append_r by (rewrite Hlen; simpl; lia).
  destruct sfx as [|a [|b [|c [|d [|? ?]]]]]; try discriminate Hlen.
  simpl in Hsfx. injection Hsfx as _ _ _ Hd.
  unfold JS.endsWith. simpl.
  destruct (Ascii.eqb_spec d "/") as [->|Hne]; [discriminate Hd|].
  destruct (String.eqb_spec (String d "") "/") as [[= ->]|_]; done.
Qed.

(** X16. The hub endpoint and the REST base name the same origin.  With
    no explicit override, and the REST base URL either not configured or
    an absolute http(s) URL, the hub base is the REST base that
    [resolveApiBase] uses, less its [/api] segment, plus [/hubs]; the
    spellings [origin/api], [origin/API] and [origin/api/] of the REST
    base all give [origin/hubs]; and without an override the hub base
    always ends in [/hubs]. *)
Theorem hub_shares_rest_origin :
  ∀ env : Env,
    JS.truthy (explicitOverride env) = false →
    (JS.truthy (VITE_API_URL env) = false
     ∨ isHttpUrl (default "" (VITE_API_URL env)) = true →
     resolveHubBaseUrl env
     = removeApiSuffix (Api.resolveApiBase (VITE_API_URL env)) ++ "/hubs")
    ∧ (∀ o sfx, JS.toLowerCase sfx = "/api" → isHttpUrl (o ++ sfx) = true →
                (VITE_API_URL env = Some (o ++ sfx) →
                 resolveHubBaseUrl env = o ++ "/hubs")
                ∧ (VITE_API_URL env = Some ((o ++ sfx) ++ "/") →
                   isHttpUrl ((o ++ sfx) ++ "/") = true →
                   resolveHubBaseUrl env = o ++ "/hubs"))
    ∧ JS.endsWith (resolveHubBaseUrl env) "/hubs" = true.
Proof.
  intros env Hexp.
  destruct (resolveHubBaseUrl_branches env) as (_ & Hderive & Hfallback).
  specialize (Hderive Hexp). specialize (Hfallback Hexp).
  assert (∀ o sfx, JS.toLowerCase sfx = "/api" →
                   hubUrlFromApi (o ++ sfx) = o ++ "/hubs"
                   ∧ hubUrlFromApi ((o ++ sfx) ++ "/") = o ++ "/hubs") as Hforms.
  { intros o sfx Hsfx. unfold hubUrlFromApi, stripTrailingSlash.
    rewrite (api_suffix_no_slash o sfx Hsfx), endsWith_append.
    pose proof (dropLast_append (o ++ sfx) "/") as Hdrop.
    change (String.length "/") with 1%nat in Hdrop. rewrite Hdrop.
    by rewrite (removeApiSuffix_append o sfx Hsfx). }
  split; [|split].
  - intros [Hunset|Hhttp].
    + rewrite Hfallback by by left. unfold Api.resolveApiBase.
      rewrite Hunset. reflexivity.
    + destruct (JS.truthy (VITE_API_URL env)) eqn:Hset.
      * apply truthy_Some in Hset as (api & Hapi & Hne).
        rewrite Hapi in Hhttp. simpl in Hhttp.
        rewrite (Hderive api Hapi Hne Hhttp).
        unfold Api.resolveApiBase, hubUrlFromApi.
        assert (JS.truthy (VITE_API_URL env) = true) as ->
          by (apply truthy_Some; by exists api).
        rewrite Hapi. simpl negb. simpl default.
        change (Api.stripTrailingSlash api) with (stripTrailingSlash api).
        destruct (isHttpUrl (stripTrailingSlash api)
                  && negb (JS.endsWith (JS.toLowerCase (stripTrailingSlash api)) "/api"))
          eqn:Hcond; [|done].
        apply andb_true_iff in Hcond as [_ Hnoapi%negb_true_iff].
        rewrite (removeApiSuffix_append (stripTrailingSlash api) "/api") by done.
        unfold removeApiSuffix. by rewrite Hnoapi.
      * rewrite Hfallback by by left. unfold Api.resolveApiBase.
        rewrite Hset. reflexivity.
  - intros o sfx Hsfx Hhttp. destruct (Hforms o sfx Hsfx) as [Hf1 Hf2]. split.
    + intros Hapi. rewrite (Hderive _ Hapi); [exact Hf1| |exact Hhttp].
      intros Hempty. apply (f_equal String.length) in Hempty.
      rewrite length_append, <- (length_toLowerCase sfx), Hsfx in Hempty.
      simpl in Hempty. lia.
    + intros Hapi Hhttp'. rewrite (Hderive _ Hapi); [exact Hf2| |exact Hhttp'].
      intros Hempty. apply (f_equal String.length) in Hempty.
      rewrite length_append in Hempty. simpl in Hempty. lia.
  - destruct (JS.truthy (VITE_API_URL env)
              && isHttpUrl (default "" (VITE_API_URL env))) eqn:Hcond.
    + apply andb_true_iff in Hcond as [Hset Hhttp].
      apply truthy_Some in Hset as (api & Hapi & Hne).
      rewrite Hapi in Hhttp. simpl in Hhttp.
      rewrite (Hderive api Hapi Hne Hhttp). unfold hubUrlFromApi.
      apply endsWith_append.
    + apply andb_false_iff in Hcond. by rewrite Hfallback.
Qed.

Lemma hub_shares_rest_origin_witness :
  resolveHubBaseUrl (mkEnv None None (Some "https://api.ecoride.example"))
  = removeApiSuffix (Api.resolveApiBase (Some "https://api.ecoride.example"))
    ++ "/hubs".
Proof.
  pose proof (hub_shares_rest_origin
                (mkEnv None None (Some "https://api.ecoride.example")))
    as H.
  destruct H as (H & _); [reflexivity|].
  apply H. by right.
Defined.

End UrlFacts.

(** ** Driver rooms *)

Module DriverRoomFacts.
Import DriverRoom Spec.

Lemma bracketed_app (joined : Cleanup) (log1 log2 : list Invocation) :
  bracketed joined (log1 ++ log2)
  = match bracketed joined log1 with
    | Some joined' => bracketed joined' log2
    | None => None
    end.
Proof.
  revert joined. induction log1 as [|[c i|c i] log1 IH]; intros joined; simpl.
  - done.
  - destruct joined; [done|apply IH].
  - case_decide; [apply IH|done].
Qed.

Lemma bracketed_runCleanup (c : Cleanup) : bracketed c (runCleanup c) = Some None.
Proof.
  destruct c as [[conn i]|]; simpl; [|done]. by rewrite decide_True.
Qed.

Lemma bracketed_effect (d : Deps) : bracketed None (effect d).1 = Some (effect d).2.
Proof.
  unfold effect.
  destruct (connection d), (isConnected d), (driverId d) as [i|]; try done.
  by destruct (String.eqb i "").
Qed.

Lemma renders_snoc (ds : list Deps) (d : Deps) (h : Hook) :
  renders (ds ++ [d]) h = render d (renders ds h).
Proof. unfold renders. by rewrite foldl_app. Qed.

Lemma deps_renders (ds : list Deps) : deps (renders ds mounting) = last ds.
Proof.
  induction ds as [|d ds IH] using rev_ind; [done|].
  rewrite renders_snoc, last_snoc. unfold render. by case_decide.
Qed.

Lemma cleanup_renders (ds : list Deps) :
  cleanup (renders ds mounting)
  = match last ds with Some d => (effect d).2 | None => None end.
Proof.
  induction ds as [|d ds IH] using rev_ind; [done|].
  rewrite renders_snoc, last_snoc. unfold render.
  case_decide as Hsame; [|done].
  rewrite deps_renders in Hsame. by rewrite IH, Hsame.
Qed.

Lemma bracketed_renders (ds : list Deps) :
  bracketed None (invoked (renders ds mounting))
  = Some (cleanup (renders ds mounting)).
Proof.
  induction ds as [|d ds IH] using rev_ind; [done|].
  rewrite renders_snoc. unfold render. case_decide as Hsame; [exact IH|].
  simpl. rewrite bracketed_app, IH, bracketed_app, bracketed_runCleanup.
  apply bracketed_effect.
Qed.

(** X17. [useDriverUpdates] keeps joins and leaves in step.  Over any
    sequence of renders, the calls it has made are well bracketed: it
    joins a driver room only while it has joined none, and it leaves only
    the room it last joined, on the connection it joined it on.  The room
    joined after the renders is the one of the latest dependencies (a
    connection, connected, and a non-empty driver id), or none when any
    of the three is missing; and unmounting leaves no room joined. *)
Theorem driver_rooms_balanced :
  ∀ ds : list Deps,
    let h := renders ds mounting in
    bracketed None (invoked h) = Some (cleanup h)
    ∧ bracketed None (invoked (unmount h)) = Some None
    ∧ (∀ c i, cleanup h = Some (c, i)
              ↔ ∃ d, last ds = Some d ∧ connection d = Some c
                     ∧ isConnected d = true ∧ driverId d = Some i ∧ i ≠ "").
Proof.
  intros ds h. subst h. split; [apply bracketed_renders|]. split.
  - unfold unmount. simpl.
    by rewrite bracketed_app, bracketed_renders, bracketed_runCleanup.
  - intros c i. rewrite cleanup_renders.
    destruct (last ds) as [d|]; [|split; [done|by intros (d & ? & _)]].
    unfold effect.
    destruct d as [[conn|] [|] [j|]]; simpl;
      try (split; [done|intros (d & [= <-] & H1 & H2 & H3 & _); simpl in *; done]).
    destruct (String.eqb_spec j "") as [->|Hne]; simpl.
    + split; [done|]. intros (d & [= <-] & _ & _ & [= <-] & Hne). done.
    + split.
      * intros [= <- <-]. eexists. repeat split; done.
      * intros (d & [= <-] & [= <-] & _ & [= <-] & _). done.
Qed.

End DriverRoomFacts.

(** ** From the event stream to the markers *)

Module EndToEndFacts.
Import LiveMap App Spec.

Lemma steps_snoc (es : list Event) (e : Event) (st : App.State) :
  steps (es ++ [e]) st = step e (steps es st).
Proof. unfold steps. by rewrite foldl_app. Qed.

Lemma locationEventsOf_snoc (es : list Event) (e : Event) :
  locationEventsOf (es ++ [e])
  = (locationEventsOf es
     ++ match e with
        | Push now (DriverLocationUpdated data) => [(now, data)]
        | _ => []
        end)%list.
Proof.
  unfold locationEventsOf. rewrite omap_app. f_equal.
  destruct e as [now [p|p|p|p|data]|s|h| | | |mode]; done.
Qed.

Lemma locationCache_steps (es : list Event) (st : App.State) (c : Component) :
  liveMap st = Some c → Forall keepsMapMounted es →
  locationCache (steps es st)
  = Some (recordAll (locationEventsOf es) (locationsByDriverId c)).
Proof.
  intros Hc. induction es as [|e es IH] using rev_ind; intros Hes.
  - unfold locationCache, steps. simpl. by rewrite Hc.
  - apply Forall_app in Hes as [Hes He]. rewrite Forall_singleton in He.
    specialize (IH Hes).
    rewrite steps_snoc, locationEventsOf_snoc.
    unfold recordAll in *. rewrite foldl_app.
    unfold locationCache in *.
    destruct (liveMap (steps es st)) as [c'|] eqn:Hmap; [|done].
    injection IH as IH.
    destruct e as [now [p|p|p|p|data]|s|h| | | |mode]; simpl;
      rewrite ?Hmap; simpl; rewrite ?IH; try done.
    all: destruct He as [He1 He2]; done.
Qed.

(** On a cache filled from empty by a run of location updates, what a
    driver's read puts on the map. *)
Lemma shows_recordAll (events : list (Z * LocationEvent)) d m :
  shows (recordAll events initialLocations) d m
  ↔ (∃ e, lastArrivalFor (driver_id d) events = Some e
          ∧ m = mkMarker (driver_id d)
                  (Num (latitude_ev e.2), Num (longitude_ev e.2)))
    ∨ (lastArrivalFor (driver_id d) events = None
       ∧ JS.inheritedMember (driver_id d) = true
       ∧ m = unlocatedMarker d).
Proof.
  unfold shows. rewrite CacheRunFacts.lookup_recordAll_entry.
  unfold initialLocations. rewrite lookup_empty.
  destruct (lastArrivalFor (driver_id d) events) as [e|]; split.
  - intros [(loc & Hloc & ->)|(Hnone & _)]; [|discriminate Hnone].
    injection Hloc as <-. left. by exists e.
  - intros [(e' & He & ->)|(Hnone & _)]; [|discriminate Hnone].
    injection He as <-. left. by exists (entryOf e).
  - intros [(loc & Hloc & _)|(_ & H)]; [discriminate Hloc|]. by right.
  - intros [(e' & He & _)|(_ & H)]; [discriminate He|]. by right.
Qed.

(** X18. From the push stream to the screen.  While the map stays
    mounted, whatever other events arrive in between, its cache is the
    cache at mount updated by the location updates of the run in arrival
    order; so on a map mounted fresh, an available (engaged) marker is
    shown for each snapshot driver of that status for whom a location
    update has arrived, at the coordinates of the last one.  The only
    other markers are those of drivers of that status for whom none has
    arrived and whose id names a member inherited from
    [Object.prototype]; they have no coordinates. *)
Theorem markers_follow_last_location_update :
  ∀ (es : list Event) (st : App.State) (drivers : list DriverSummary),
    liveMap st = Some mount → Forall keepsMapMounted es →
    ∃ locs,
      locationCache (steps es st) = Some locs
      ∧ locs = recordAll (locationEventsOf es) initialLocations
      ∧ (∀ m, m ∈ availableMarkers drivers locs
              ↔ ∃ d, d ∈ drivers ∧ isAvailable d
                     ∧ ((∃ e, lastArrivalFor (driver_id d) (locationEventsOf es)
                              = Some e
                              ∧ m = mkMarker (driver_id d)
                                      (Num (latitude_ev e.2),
                                       Num (longitude_ev e.2)))
                        ∨ (lastArrivalFor (driver_id d) (locationEventsOf es)
                           = None
                           ∧ JS.inheritedMember (driver_id d) = true
                           ∧ m = unlocatedMarker d)))
      ∧ (∀ m, m ∈ engagedMarkers drivers locs
              ↔ ∃ d, d ∈ drivers ∧ isEngaged d
                     ∧ ((∃ e, lastArrivalFor (driver_id d) (locationEventsOf es)
                              = Some e
                              ∧ m = mkMarker (driver_id d)
                                      (Num (latitude_ev e.2),
                                       Num (longitude_ev e.2)))
                        ∨ (lastArrivalFor (driver_id d) (locationEventsOf es)
                           = None
                           ∧ JS.inheritedMember (driver_id d) = true
                           ∧ m = unlocatedMarker d))).
Proof.
  intros es st drivers Hmount Hes.
  exists (recordAll (locationEventsOf es) initialLocations).
  split; [by apply (locationCache_steps es st mount)|]. split; [done|].
  split; intros m.
  - rewrite MarkerFacts.elem_of_availableMarkers.
    split; intros (d & Hd & Hs & H); exists d; (split; [done|]); (split; [done|]);
      by apply shows_recordAll.
  - rewrite MarkerFacts.elem_of_engagedMarkers.
    split; intros (d & Hd & Hs & H); exists d; (split; [done|]); (split; [done|]);
      by apply shows_recordAll.
Qed.

Lemma markers_follow_last_location_update_witness :
  ∃ locs,
    locationCache
      (steps [Push 1 (DriverLocationUpdated (mkLocationEvent "D1" 1 2));
              Lifecycle Close;
              Push 2 (DriverLocationUpdated (mkLocationEvent "D1" 3 4))]
         (mkApp Hub.initial (Some mount)))
    = Some locs
    ∧ mkMarker "D1" (Num 3%float, Num 4%float)
      ∈ availableMarkers [mkDriver "D1" "online"] locs.
Proof.
  destruct (markers_follow_last_location_update
              [Push 1 (DriverLocationUpdated (mkLocationEvent "D1" 1 2));
               Lifecycle Close;
               Push 2 (DriverLocationUpdated (mkLocationEvent "D1" 3 4))]
              (mkApp Hub.initial (Some mount)) [mkDriver "D1" "online"])
    as (locs & Hcache & _ & Ha & _).
  - reflexivity.
  - repeat (apply List.Forall_cons; [split; discriminate|]). apply List.Forall_nil.
  - exists locs. split; [exact Hcache|]. apply Ha.
    exists (mkDriver "D1" "online").
    split; [apply list_elem_of_singleton; reflexivity|].
    split; [reflexivity|]. left.
    exists (2%Z, mkLocationEvent "D1" 3 4). split; reflexivity.
Defined.

End EndToEndFacts.

(** ** The REST base *)

Module ApiFacts.
Import Hub Spec EndpointFacts UrlFacts.

Lemma substring_prefix_append (s t : string) (n : nat) :
  (n ≤ String.length s)%nat → substring 0 n (s ++ t) = substring 0 n s.
Proof.
  revert n. induction s as [|c s IH]; intros [|n] Hn; simpl in *; try lia.
  - by destruct t.
  - done.
  - f_equal. apply IH. lia.
Qed.

Lemma length_substring_le (s : string) (k n : nat) :
  (String.length (substring k n s) ≤ String.length s)%nat.
Proof.
  revert k n. induction s as [|c s IH]; intros [|k] [|n]; simpl; try lia.
  - specialize (IH 0%nat n). lia.
  - specialize (IH k 0%nat). lia.
  - specialize (IH k (S n)). lia.
Qed.

Lemma startsWith_append (s t p : string) :
  JS.startsWith s p = true → JS.startsWith (s ++ t) p = true.
Proof.
  unfold JS.startsWith. intros H%String.eqb_eq. apply String.eqb_eq.
  rewrite substring_prefix_append; [done|].
  pose proof (length_substring_le s 0 (String.length p)) as Hlen.
  rewrite H in Hlen. exact Hlen.
Qed.

Lemma isHttpUrl_append (s t : string) :
  isHttpUrl s = true → isHttpUrl (s ++ t) = true.
Proof.
  unfold isHttpUrl. rewrite toLowerCase_append.
  intros [H|H]%orb_true_iff; apply orb_true_iff; [left|right];
    by apply startsWith_append.
Qed.

(** X19. [resolveApiBase]: with no REST base configured (or an empty
    one) the production base is used; a configured base first loses one
    trailing slash; if what remains is an absolute http(s) URL, the
    result is that URL with [/api] appended unless it already ends in
    [/api] in some letter case, so it always ends in [/api] and is still
    an absolute http(s) URL; a base without such a scheme is returned as
    it is. *)
Theorem rest_base_resolution :
  ∀ configured : option string,
    (JS.truthy configured = false →
     Api.resolveApiBase configured = "https://ecoride-4560.onrender.com/api")
    ∧ (∀ api, configured = Some api → api ≠ "" →
         let base := stripTrailingSlash api in
         (isHttpUrl base = true →
          JS.endsWith (JS.toLowerCase (Api.resolveApiBase configured)) "/api" = true
          ∧ isHttpUrl (Api.resolveApiBase configured) = true
          ∧ removeApiSuffix (Api.resolveApiBase configured) = removeApiSuffix base
          ∧ (JS.endsWith (JS.toLowerCase base) "/api" = true →
             Api.resolveApiBase configured = base)
          ∧ (JS.endsWith (JS.toLowerCase base) "/api" = false →
             Api.resolveApiBase configured = base ++ "/api"))
         ∧ (isHttpUrl base = false → Api.resolveApiBase configured = base)).
Proof.
  intros configured. split.
  - intros Hunset. unfold Api.resolveApiBase. by rewrite Hunset.
  - intros api -> Hne base.
    assert (JS.truthy (Some api) = true) as Hset
      by (apply truthy_Some; by exists api).
    unfold Api.resolveApiBase. rewrite Hset. simpl negb. simpl default.
    change (Api.stripTrailingSlash api) with base.
    split.
    + intros Hhttp. rewrite Hhttp. simpl andb.
      destruct (JS.endsWith (JS.toLowerCase base) "/api") eqn:Hapi; simpl negb.
      * repeat split; try done.
      * split; [|split; [|split; [|split]]]; try done.
        -- rewrite toLowerCase_append. apply endsWith_append.
        -- by apply isHttpUrl_append.
        -- rewrite (removeApiSuffix_append base "/api") by done.
           unfold removeApiSuffix. by rewrite Hapi.
    + intros Hhttp. by rewrite Hhttp.
Qed.

Lemma rest_base_resolution_witness :
  Api.resolveApiBase (Some "https://api.ecoride.example/")
  = "https://api.ecoride.example/api".
Proof.
  pose proof (rest_base_resolution (Some "https://api.ecoride.example/"))
    as (_ & H).
  destruct (H "https://api.ecoride.example/") as ((_ & _ & _ & _ & Happend) & _);
    [reflexivity|discriminate|reflexivity|].
  apply Happend. reflexivity.
Defined.

End ApiFacts.
